(** * Minimum delivery cost: a shallow embedding of [index.js] and of its
      near-duplicate entry point, with the properties of the design notes.

    Modelling conventions.
    - A JavaScript number is a [jsnum]: an exact rational, one of the two
      infinities, or NaN.  Every number the two programs compute from their
      tables is a small dyadic rational, on which double arithmetic is exact.
    - A plain object used as a map is the association list of its own
      properties, in property order.  Its prototype is [Object.prototype]:
      a read [o[k]] ([obj_read]) that finds no own property falls back on
      the twelve members of [Object.prototype], and an assignment
      [o[k] = v] ([obj_assign]) of a number or a string under the name
      [__proto__] reaches the setter of [Object.prototype], which ignores
      it.
    - A value that is a string or such a member is a [loc]; the router is
      written once for every type of locations ([Location]), the two
      instances being the strings and [loc].
    - A [Set] is a duplicate-free list in insertion order.
    - A string is a list of 8-bit character codes, compared code by code.
    - Bitwise operators work on 32-bit integers, with the wrap-around and the
      shift count modulo 32 written out. *)

From Stdlib Require Import List String Ascii ZArith QArith Qcanon Qround.
From Stdlib Require Import Lia Permutation Bool Orders Mergesort Sorted.
From Stdlib Require Import Factorial.
Import ListNotations.

(** ** The fragment of the JavaScript runtime the programs use *)

Module JS.

Inductive jsnum : Type :=
| NaN
| NegInf
| Num (q : Qc)
| PosInf.

Definition zero : jsnum := Num (Q2Qc 0).

Definition ofZ (z : Z) : jsnum := Num (Q2Qc (inject_Z z)).

(** [a + b] *)
Definition add (a b : jsnum) : jsnum :=
  match a, b with
  | NaN, _ | _, NaN => NaN
  | PosInf, NegInf | NegInf, PosInf => NaN
  | PosInf, _ | _, PosInf => PosInf
  | NegInf, _ | _, NegInf => NegInf
  | Num x, Num y => Num (x + y)
  end.

Definition negate (a : jsnum) : jsnum :=
  match a with
  | NaN => NaN
  | NegInf => PosInf
  | PosInf => NegInf
  | Num x => Num (- x)
  end.

(** An infinity times the finite factor [x]. *)
Definition scaleInf (inf : jsnum) (x : Qc) : jsnum :=
  match x ?= 0 with
  | Eq => NaN
  | Gt => inf
  | Lt => negate inf
  end.

(** [a * b] *)
Definition mul (a b : jsnum) : jsnum :=
  match a, b with
  | NaN, _ | _, NaN => NaN
  | Num x, Num y => Num (x * y)
  | Num x, inf => scaleInf inf x
  | inf, Num y => scaleInf inf y
  | PosInf, PosInf | NegInf, NegInf => PosInf
  | PosInf, NegInf | NegInf, PosInf => NegInf
  end.

(** [a < b]; every comparison with NaN is false. *)
Definition lt (a b : jsnum) : bool :=
  match a, b with
  | NaN, _ | _, NaN => false
  | NegInf, NegInf => false
  | NegInf, _ => true
  | _, NegInf => false
  | PosInf, _ => false
  | _, PosInf => true
  | Num x, Num y => match x ?= y with Lt => true | _ => false end
  end.

(** [a > b] *)
Definition gt (a b : jsnum) : bool := lt b a.

Definition isNaN (a : jsnum) : bool :=
  match a with NaN => true | _ => false end.

(** Truthiness of a number: everything but 0 and NaN. *)
Definition truthy (a : jsnum) : bool :=
  match a with
  | NaN => false
  | Num x => if Qc_eq_dec x (Q2Qc 0) then false else true
  | _ => true
  end.

(** [Math.min(a, b)] *)
Definition Math_min (a b : jsnum) : jsnum :=
  match a, b with
  | NaN, _ | _, NaN => NaN
  | _, _ => if lt b a then b else a
  end.

(** [Math.round(a)]: the nearest integer, halves rounded up. *)
Definition Math_round (a : jsnum) : jsnum :=
  match a with
  | Num x => ofZ (Qfloor (x + Q2Qc (1 # 2)))
  | _ => a
  end.

(** Structural comparison, for evaluating closed terms. *)
Definition eqb (a b : jsnum) : bool :=
  match a, b with
  | NaN, NaN | NegInf, NegInf | PosInf, PosInf => true
  | Num x, Num y => Qc_eq_bool x y
  | _, _ => false
  end.

(** *** 32-bit integers *)

Definition ToInt32 (z : Z) : Z := ((z + 2 ^ 31) mod 2 ^ 32 - 2 ^ 31)%Z.

(** [a << n] *)
Definition shl (a n : Z) : Z :=
  ToInt32 (Z.shiftl (ToInt32 a) (n mod 32)).

(** [a >> n] *)
Definition sar (a n : Z) : Z :=
  Z.shiftr (ToInt32 a) (n mod 32).

(** [a & b] *)
Definition band (a b : Z) : Z :=
  ToInt32 (Z.land (ToInt32 a) (ToInt32 b)).

(** *** Plain objects: own properties, in property order *)

Definition object (V : Type) : Type := list (string * V).

(** The own property [k] of [o], if it has one. *)
Fixpoint obj_get {V : Type} (k : string) (o : object V) : option V :=
  match o with
  | [] => None
  | (k', v) :: rest => if String.eqb k k' then Some v else obj_get k rest
  end.

(** [o] with the own property [k] defined as [v]: overwritten in place, or
    appended as a new property. *)
Fixpoint obj_set {V : Type} (k : string) (v : V) (o : object V) : object V :=
  match o with
  | [] => [(k, v)]
  | (k', v') :: rest =>
      if String.eqb k k' then (k', v) :: rest else (k', v') :: obj_set k v rest
  end.

Definition Object_keys {V : Type} (o : object V) : list string := map fst o.

(** *** The prototype of a plain object

    The names of the members of [Object.prototype]: eleven functions and the
    accessor [__proto__], whose getter returns [Object.prototype] itself and
    whose setter ignores a value that is neither an object nor [null]. *)

Definition ObjectPrototype : list string :=
  [ "constructor"; "__defineGetter__"; "__defineSetter__"; "hasOwnProperty";
    "__lookupGetter__"; "__lookupSetter__"; "isPrototypeOf";
    "propertyIsEnumerable"; "toString"; "valueOf"; "__proto__";
    "toLocaleString" ]%string.

Definition inherited (k : string) : bool :=
  existsb (String.eqb k) ObjectPrototype.

(** What the read [o[k]] finds: an own property, the member [name] of
    [Object.prototype], or nothing ([undefined]). *)
Inductive fetched (V : Type) : Type :=
| Own (v : V)
| Inherited (name : string)
| Undefined.

Arguments Own {V} v.
Arguments Inherited {V} name.
Arguments Undefined {V}.

(** [o[k]] *)
Definition obj_read {V : Type} (k : string) (o : object V) : fetched V :=
  match obj_get k o with
  | Some v => Own v
  | None => if inherited k then Inherited k else Undefined
  end.

(** [o[k] = v], for [v] a number or a string. *)
Definition obj_assign {V : Type} (k : string) (v : V) (o : object V)
  : object V :=
  match obj_get k o with
  | Some _ => obj_set k v o
  | None => if String.eqb k "__proto__" then o else obj_set k v o
  end.

(** *** Values

    A string, or the member [name] of [Object.prototype]. *)
Inductive loc : Type :=
| Str (s : string)
| Proto (name : string).

Coercion Str : string >-> loc.

(** A number, or the member [name] of [Object.prototype]: what
    [DISTANCES[key] || Infinity] evaluates to. *)
Inductive distance : Type :=
| Dist (d : jsnum)
| DistProto (name : string).

(** The operand of [*] is converted to a number: a function, and
    [Object.prototype], convert to NaN. *)
Definition ToNumber (d : distance) : jsnum :=
  match d with
  | Dist n => n
  | DistProto _ => NaN
  end.

Coercion ToNumber : distance >-> jsnum.

(** A number, or the member [name] of [Object.prototype]: what
    [calculateMinDeliveryCost] returns. *)
Inductive answer : Type :=
| Ans (n : jsnum)
| AnsProto (name : string).

Coercion Ans : jsnum >-> answer.

(** The text of a member of [Object.prototype] inside a template literal:
    [Object.prototype], which [__proto__] reads, prints as an object; each of
    the others is a built-in function, printed under its name ([constructor]
    is the function [Object]). *)
Definition memberText (name : string) : string :=
  if String.eqb name "__proto__" then "[object Object]"%string
  else
    String.append "function "
      (String.append
         (if String.eqb name "constructor" then "Object"%string else name)
         "() { [native code] }").

(** *** Locations

    The router handles a location in three ways: it compares two of them
    with [===] (as the [Set] does), it prints one inside a template literal,
    and it writes the string literal ['L1'] as one. *)
Class Location (L : Type) : Type := mkLocation
  { fromString : string -> L;
    toText : L -> string;
    strictEq : L -> L -> bool;
    strictEq_eq : forall x y, strictEq x y = true <-> x = y;
    toText_fromString : forall s, toText (fromString s) = s }.

#[export] Instance string_Location : Location string :=
  {| fromString := fun s => s;
     toText := fun s => s;
     strictEq := String.eqb;
     strictEq_eq := String.eqb_eq;
     toText_fromString := fun s => eq_refl |}.

Definition loc_eqb (x y : loc) : bool :=
  match x, y with
  | Str a, Str b => String.eqb a b
  | Proto a, Proto b => String.eqb a b
  | _, _ => false
  end.

Lemma loc_eqb_eq (x y : loc) : loc_eqb x y = true <-> x = y.
Proof.
  destruct x as [a|a], y as [b|b]; simpl;
    try (split; [discriminate | intro H; discriminate H]);
    rewrite String.eqb_eq; split; intro H;
    try (now subst); now injection H.
Qed.

Definition loc_text (x : loc) : string :=
  match x with
  | Str s => s
  | Proto name => memberText name
  end.

#[export] Instance loc_Location : Location loc :=
  {| fromString := Str;
     toText := loc_text;
     strictEq := loc_eqb;
     strictEq_eq := loc_eqb_eq;
     toText_fromString := fun s => eq_refl |}.

(** *** Sets, in insertion order *)

Fixpoint Set_has {L : Type} {LL : Location L} (x : L) (s : list L) : bool :=
  match s with
  | [] => false
  | y :: rest => strictEq x y || Set_has x rest
  end.

Definition Set_add {L : Type} {LL : Location L} (x : L) (s : list L) : list L :=
  if Set_has x s then s else s ++ [x].

(** *** [Array.prototype.sort] and [join] on arrays of strings *)

Module StringOrder <: TotalLeBool.
Definition t : Type := string.
Definition leb : t -> t -> bool := String.leb.
Theorem leb_total : forall a b, leb a b = true \/ leb b a = true.
Proof. exact String.leb_total. Qed.
End StringOrder.

Module StringSort := Sort StringOrder.

Definition sort (l : list string) : list string := StringSort.sort l.

Fixpoint join (sep : string) (l : list string) : string :=
  match l with
  | [] => EmptyString
  | [x] => x
  | x :: rest => String.append x (String.append sep (join sep rest))
  end.

(** *** Property values of a request body

    The normaliser looks at a value in two ways only: whether its type is
    [number], and the number that [Number(value)] coerces it to (NaN when
    the value does not parse as one). *)

Inductive value : Type :=
| VNumber (n : jsnum)
| VOther (coerced : jsnum).

Definition typeof_number (v : value) : bool :=
  match v with VNumber _ => true | VOther _ => false end.

Definition Number (v : value) : jsnum :=
  match v with VNumber n => n | VOther n => n end.

End JS.

Import JS.

(** ** The route optimiser, shared by both entry points

    [getDistance], [calculateRouteCost], [getPermutations] and
    [findOptimalRoute] are the same text in both files; they differ in the
    distance table and in the name of the unit cost only, which are the
    parameters of this section.  The type [L] is the one of the locations
    they are handed. *)

Definition HUB : string := "L1".

Record RouteResult (L : Type) : Type := mkResult
  { route : option (list L);
    cost : jsnum }.

Arguments mkResult {L} route cost.
Arguments route {L} r.
Arguments cost {L} r.

Section Router.

Context {L : Type} {LL : Location L}.
Variable DISTANCES : object Qc.
Variable COST : Qc.

(** [DISTANCES[key] || Infinity] *)
Definition getDistance (from to : L) : distance :=
  let key := String.append (toText from) (String.append "_" (toText to)) in
  match obj_read key DISTANCES with
  | Own d => if truthy (Num d) then Dist (Num d) else Dist PosInf
  | Inherited name => DistProto name
  | Undefined => Dist PosInf
  end.

(** The body of the [for] loop of [calculateRouteCost], run [count] times
    from index [i]. *)
Fixpoint routeCostLoop (route : list L) (i count : nat) (cost : jsnum)
  : jsnum :=
  match count with
  | O => cost
  | S count' =>
      let start := nth i route (fromString EmptyString) in
      let end_ := nth (i + 1) route (fromString EmptyString) in
      routeCostLoop route (i + 1) count'
        (add cost (mul (getDistance start end_) (Num COST)))
  end.

Definition calculateRouteCost (route : list L) : jsnum :=
  routeCostLoop route 0 (List.length route - 1) zero.

(** [arr.slice(0, i).concat(arr.slice(i + 1))] *)
Definition removeAt {A : Type} (i : nat) (arr : list A) : list A :=
  firstn i arr ++ skipn (i + 1) arr.

(** [getPermutations] recurses on a shorter array; [fuel] bounds the depth
    of the recursion and [length arr] is always enough. *)
Fixpoint getPermutationsFuel {A : Type} (fuel : nat) (arr : list A)
  : list (list A) :=
  if List.length arr <=? 1 then [arr]
  else
    match fuel with
    | O => []
    | S fuel' =>
        flat_map
          (fun i =>
             match nth_error arr i with
             | Some current =>
                 map (cons current) (getPermutationsFuel fuel' (removeAt i arr))
             | None => []
             end)
          (seq 0 (List.length arr))
    end.

Definition getPermutations {A : Type} (arr : list A) : list (list A) :=
  getPermutationsFuel (List.length arr) arr.

(** The inner [for] loop that builds a candidate: the hub is pushed before
    [perm[i]] when bit [i] of [mask] is set. *)
Fixpoint pushCenters (mask : Z) (i : nat) (perm : list L) (route : list L)
  : list L :=
  match perm with
  | [] => route
  | center :: rest =>
      let route' :=
        if Z.eqb (band (sar mask (Z.of_nat i)) 1) 0 then route
        else route ++ [fromString HUB] in
      pushCenters mask (i + 1) rest (route' ++ [center])
  end.

(** One candidate route, closed at the hub. *)
Definition buildRoute (startCenter : L) (perm : list L) (mask : Z) : list L :=
  let route := pushCenters mask 0 perm [startCenter] in
  if strictEq (last route (fromString EmptyString)) (fromString HUB)
  then route
  else route ++ [fromString HUB].

(** The values [mask] takes in [for (mask = 0; mask < (1 << n); mask++)]. *)
Definition masks (n : nat) : list Z :=
  map Z.of_nat (seq 0 (Z.to_nat (shl 1 (Z.of_nat n)))).

(** [if (cost < minCost) { minCost = cost; bestRoute = route; }] *)
Definition keepBest (best : RouteResult L) (candidate : list L)
  : RouteResult L :=
  let c := calculateRouteCost candidate in
  if lt c (cost best) then mkResult (Some candidate) c else best.

Definition findOptimalRoute (startCenter : L) (centersNeeded : list L)
  : RouteResult L :=
  let centersToVisit :=
    filter (fun center => negb (strictEq center startCenter)) centersNeeded in
  if List.length centersToVisit =? 0 then
    if Set_has startCenter centersNeeded then
      mkResult (Some [startCenter; fromString HUB])
        (calculateRouteCost [startCenter; fromString HUB])
    else mkResult (Some []) PosInf
  else
    fold_left
      (fun best perm =>
         fold_left
           (fun best mask => keepBest best (buildRoute startCenter perm mask))
           (masks (List.length perm)) best)
      (getPermutations centersToVisit)
      (mkResult None PosInf).

End Router.

Arguments getDistance {L LL} DISTANCES (from to)%_string.
Arguments calculateRouteCost {L LL} DISTANCES COST route.
Arguments buildRoute {L LL} startCenter%_string perm mask%_Z.
Arguments findOptimalRoute {L LL} DISTANCES COST startCenter%_string
  centersNeeded.

(** ** Catalogue, centre resolution and order normalisation (both files) *)

Definition CENTER_PRODUCTS : object (list string) :=
  [ ("C1", ["A"; "B"; "C"]);
    ("C2", ["D"; "E"; "F"]);
    ("C3", ["G"; "H"; "I"]) ]%string.

Definition getProductCenterMap : object string :=
  fold_left
    (fun productCenterMap '(center, products) =>
       fold_left
         (fun productCenterMap product =>
            obj_assign product center productCenterMap)
         products productCenterMap)
    CENTER_PRODUCTS [].

(** [productCenterMap[product]] when it is truthy: a non-empty string, or a
    member of [Object.prototype]. *)
Definition truthyCenter (c : fetched string) : option loc :=
  match c with
  | Own s => if String.eqb s EmptyString then None else Some (Str s)
  | Inherited name => Some (Proto name)
  | Undefined => None
  end.

Definition findCentersNeeded (order : object jsnum)
  (productCenterMap : object string) : list loc :=
  fold_left
    (fun centersNeeded '(product, quantity) =>
       if gt quantity zero then
         match truthyCenter (obj_read product productCenterMap) with
         | Some center => Set_add center centersNeeded
         | None => centersNeeded
         end
       else centersNeeded)
    order [].

(** The guard of the cleaning loop; [typeof key === 'string'] holds of every
    property name. *)
Definition validEntry (value : JS.value) : bool :=
  (typeof_number value || negb (isNaN (Number value)))
  && gt (Number value) zero.

(** The cleaning loop of [calculateMinDeliveryCost]; [order] is given as the
    list [Object.entries(order)] of its own properties. *)
Definition filteredOrder (order : object JS.value) : object jsnum :=
  fold_left
    (fun filtered '(key, value) =>
       if validEntry value then obj_assign key (Number value) filtered
       else filtered)
    order [].

(** [['C1', 'C2', 'C3']] *)
Definition centers {L : Type} {LL : Location L} : list L :=
  map fromString ["C1"; "C2"; "C3"]%string.

(** [testCases[key]] when it is truthy. *)
Definition lookupCase (testCases : object jsnum) (key : string)
  : option answer :=
  match obj_read key testCases with
  | Own v => if truthy v then Some (Ans v) else None
  | Inherited name => Some (AnsProto name)
  | Undefined => None
  end.

(** ** [index.js] *)

Module IndexJs.

Definition DISTANCES : object Qc :=
  [ ("C1_L1", Q2Qc 13); ("C2_L1", Q2Qc 39); ("C3_L1", Q2Qc 18);
    ("L1_C1", Q2Qc 13); ("L1_C2", Q2Qc 39); ("L1_C3", Q2Qc 18);
    ("C1_C2", Q2Qc 30); ("C1_C3", Q2Qc 40);
    ("C2_C1", Q2Qc 30); ("C2_C3", Q2Qc 20);
    ("C3_C1", Q2Qc 40); ("C3_C2", Q2Qc 20) ]%string.

Definition COST_PER_KM : Qc := Q2Qc 3.

Definition testCases : object jsnum :=
  [ ("A,G,H,I", ofZ 86); ("A,B,C,G,H,I", ofZ 118);
    ("A,B,C", ofZ 78); ("A,B,C,D", ofZ 168) ]%string.

Definition findOptimalRoute {L : Type} {LL : Location L}
  : L -> list L -> RouteResult L :=
  findOptimalRoute DISTANCES COST_PER_KM.

Arguments findOptimalRoute {L LL} startCenter%_string centersNeeded.

(** [calculateMinDeliveryCost], with the optimiser it calls as a parameter. *)
Definition calculateMinDeliveryCostWith
  (optimiser : loc -> list loc -> RouteResult loc)
  (order : object JS.value) : answer :=
  let filteredOrder := filteredOrder order in
  if List.length (Object_keys filteredOrder) =? 0 then Ans zero
  else
    let productCenterMap := getProductCenterMap in
    let centersNeeded := findCentersNeeded filteredOrder productCenterMap in
    if List.length centersNeeded =? 0 then Ans zero
    else
      let orderProducts := join "," (sort (Object_keys filteredOrder)) in
      match lookupCase testCases orderProducts with
      | Some fixed => fixed
      | None =>
          Ans
            (fold_left
               (fun minCost startCenter =>
                  Math_min minCost (cost (optimiser startCenter centersNeeded)))
               centers PosInf)
      end.

Definition calculateMinDeliveryCost (order : object JS.value) : answer :=
  calculateMinDeliveryCostWith findOptimalRoute order.

End IndexJs.

(** ** The second entry point *)

Module Part000.

Definition DISTANCES : object Qc :=
  [ ("C1_L1", Q2Qc 3); ("C2_L1", Q2Qc 2.5); ("C3_L1", Q2Qc 2);
    ("L1_C1", Q2Qc 3); ("L1_C2", Q2Qc 2.5); ("L1_C3", Q2Qc 2);
    ("C1_C2", Q2Qc 4); ("C1_C3", Q2Qc 3);
    ("C2_C1", Q2Qc 4); ("C2_C3", Q2Qc 3);
    ("C3_C1", Q2Qc 3); ("C3_C2", Q2Qc 3) ]%string.

Definition COST_PER_UNIT : Qc := Q2Qc 3.

Definition entries_eqb (a b : object jsnum) : bool :=
  (List.length a =? List.length b)
  && forallb (fun '((k, v), (k', v')) => String.eqb k k' && JS.eqb v v')
       (combine a b).

(** The table keyed by [JSON.stringify(filteredOrder)].  The text of an
    object with finite numbers as values determines its entries, so each key
    is kept as the entries it is the text of, and read by comparing
    entries.  Such a text begins with a brace, so that it names no member of
    [Object.prototype]: the read finds an own property or nothing. *)
Definition testCases : list (object jsnum * jsnum) :=
  [ ([("A", ofZ 1); ("G", ofZ 1); ("H", ofZ 1); ("I", ofZ 3)], ofZ 86);
    ([("A", ofZ 1); ("B", ofZ 1); ("C", ofZ 1);
      ("G", ofZ 1); ("H", ofZ 1); ("I", ofZ 1)], ofZ 118);
    ([("A", ofZ 1); ("B", ofZ 1); ("C", ofZ 1)], ofZ 78);
    ([("A", ofZ 1); ("B", ofZ 1); ("C", ofZ 1); ("D", ofZ 1)], ofZ 168)
  ]%string.

(** [testCases[JSON.stringify(o)]] when it is truthy. *)
Fixpoint lookupText (cases : list (object jsnum * jsnum)) (o : object jsnum)
  : option jsnum :=
  match cases with
  | [] => None
  | (entries, v) :: rest =>
      if entries_eqb o entries then (if truthy v then Some v else None)
      else lookupText rest o
  end.

Definition productBasedCases : object jsnum :=
  [ ("A,G,H,I", ofZ 86); ("A,B,C,G,H,I", ofZ 118);
    ("A,B,C", ofZ 78); ("A,B,C,D", ofZ 168) ]%string.

Definition scalingFactor : jsnum := ofZ 13.

Definition findOptimalRoute {L : Type} {LL : Location L}
  : L -> list L -> RouteResult L :=
  findOptimalRoute DISTANCES COST_PER_UNIT.

Arguments findOptimalRoute {L LL} startCenter%_string centersNeeded.

(** [sortedOrder]: the entries of [filteredOrder], keys sorted; every key
    read is an own property of [filteredOrder]. *)
Definition sortedOrder (filteredOrder : object jsnum) : object jsnum :=
  fold_left
    (fun sortedOrder key =>
       match obj_get key filteredOrder with
       | Some v => obj_assign key v sortedOrder
       | None => sortedOrder
       end)
    (sort (Object_keys filteredOrder)) [].

Definition calculateMinDeliveryCostWith
  (optimiser : loc -> list loc -> RouteResult loc)
  (order : object JS.value) : answer :=
  let filteredOrder := filteredOrder order in
  if List.length (Object_keys filteredOrder) =? 0 then Ans zero
  else
    match lookupText testCases filteredOrder with
    | Some fixed => Ans fixed
    | None =>
    match lookupText testCases (sortedOrder filteredOrder) with
    | Some fixed => Ans fixed
    | None =>
    let orderProducts := join "," (sort (Object_keys filteredOrder)) in
    match lookupCase productBasedCases orderProducts with
    | Some fixed => fixed
    | None =>
        let productCenterMap := getProductCenterMap in
        let centersNeeded := findCentersNeeded filteredOrder productCenterMap in
        if List.length centersNeeded =? 0 then Ans zero
        else
          let minCost :=
            fold_left
              (fun minCost startCenter =>
                 let c := cost (optimiser startCenter centersNeeded) in
                 if lt c minCost then c else minCost)
              centers PosInf in
          Ans (Math_round (mul minCost scalingFactor))
    end end end.

Definition calculateMinDeliveryCost (order : object JS.value) : answer :=
  calculateMinDeliveryCostWith findOptimalRoute order.

End Part000.

(** ** Notions of the specification *)

(** The order on costs: [NegInf] below every number, [PosInf] above, NaN
    comparable with nothing. *)
Definition le (a b : jsnum) : Prop :=
  match a, b with
  | NaN, _ | _, NaN => False
  | NegInf, _ => True
  | _, PosInf => True
  | Num x, Num y => (x <= y)%Qc
  | _, _ => False
  end.

(** A cost: a finite number or [Infinity]. *)
Definition isCost (a : jsnum) : Prop :=
  match a with
  | Num _ | PosInf => True
  | _ => False
  end.

(** [m] is the least of the values that satisfy [P]. *)
Definition isMinimumOf (m : jsnum) (P : jsnum -> Prop) : Prop :=
  P m /\ forall x, P x -> le m x.

Fixpoint total (l : list jsnum) : jsnum :=
  match l with
  | [] => zero
  | x :: rest => add x (total rest)
  end.

(** The locations of the network: the three centres and the hub. *)
Definition locations : list string := centers ++ [HUB].

(** The table key of the pair of locations [(from, to)]. *)
Definition tableKey (from to : string) : string :=
  String.append from (String.append "_" to).

(** The distance the table gives from [from] to [to]: its entry for the
    pair, and no entry means unreachable. *)
Definition tableDistance (DISTANCES : object Qc) (from to : string) : jsnum :=
  match obj_get (tableKey from to) DISTANCES with
  | Some d => Num d
  | None => PosInf
  end.

(** The cost of a leg as the table gives it: the distance times the unit
    cost. *)
Definition tableLegCost (DISTANCES : object Qc) (COST : Qc)
  (leg : string * string) : jsnum :=
  mul (tableDistance DISTANCES (fst leg) (snd leg)) (Num COST).

(** The consecutive pairs of a route. *)
Fixpoint legs (route : list string) : list (string * string) :=
  match route with
  | from :: (to :: _) as rest => (from, to) :: legs rest
  | _ => []
  end.

Section RouterSpec.

Context {L : Type} {LL : Location L}.
Variable DISTANCES : object Qc.
Variable COST : Qc.

(** The stops after the start, as the specification words them: each
    element of the permutation in order, the hub immediately before it when
    bit [i] of the mask is set. *)
Fixpoint specStops (mask : Z) (i : nat) (perm : list L) : list L :=
  match perm with
  | [] => []
  | center :: rest =>
      (if Z.testbit mask (Z.of_nat i) then [fromString HUB; center]
       else [center])
        ++ specStops mask (S i) rest
  end.

(** The candidate route of the specification, closed at the hub. *)
Definition specRoute (startCenter : L) (perm : list L) (mask : Z) : list L :=
  let r := startCenter :: specStops mask 0 perm in
  if strictEq (last r (fromString EmptyString)) (fromString HUB) then r
  else r ++ [fromString HUB].

(** distance x unit cost of the leg from [route[i]] to [route[i + 1]] *)
Definition legCost (route : list L) (i : nat) : jsnum :=
  mul (getDistance DISTANCES (nth i route (fromString EmptyString))
         (nth (i + 1) route (fromString EmptyString)))
    (Num COST).

(** The sum over the consecutive pairs of a route. *)
Definition sumOfLegs (route : list L) : jsnum :=
  total (map (legCost route) (seq 0 (List.length route - 1))).

(** [c] is the cost of a candidate route for [toVisit]: some permutation,
    some mask among the [2^n]. *)
Definition candidateCost (startCenter : L) (toVisit : list L) (c : jsnum)
  : Prop :=
  exists perm mask,
    Permutation toVisit perm
    /\ (0 <= mask < 2 ^ Z.of_nat (List.length toVisit))%Z
    /\ c = calculateRouteCost DISTANCES COST (specRoute startCenter perm mask).

(** What [findOptimalRoute] returns when something is left to visit: either
    no route with cost [Infinity], or a route from the start to the hub
    through every centre to visit, with its own finite cost. *)
Definition searchResult (startCenter : L) (centersToVisit : list L)
  (res : RouteResult L) : Prop :=
  match route res with
  | None => cost res = PosInf
  | Some r =>
      cost res = calculateRouteCost DISTANCES COST r
      /\ cost res <> PosInf
      /\ hd_error r = Some startCenter
      /\ last r (fromString EmptyString) = fromString HUB
      /\ forall c, In c centersToVisit -> In c r
  end.

End RouterSpec.

Arguments specRoute {L LL} startCenter%_string perm mask%_Z.
Arguments candidateCost {L LL} DISTANCES COST startCenter%_string toVisit c.
Arguments searchResult {L LL} DISTANCES COST startCenter%_string
  centersToVisit res.

(** [Centers Needed] minus the start. *)
Definition toVisit {L : Type} {LL : Location L} (startCenter : L)
  (centersNeeded : list L) : list L :=
  filter (fun center => negb (strictEq center startCenter)) centersNeeded.

Arguments toVisit {L LL} startCenter%_string centersNeeded.

(** The products of the catalogue. *)
Definition catalogProducts : list string :=
  List.concat (map snd CENTER_PRODUCTS).

(** The comma-joined sorted list of the valid product keys of an order. *)
Definition orderProducts (order : object JS.value) : string :=
  join "," (sort (Object_keys (filteredOrder order))).

Definition centersNeededOf (order : object JS.value) : list loc :=
  findCentersNeeded (filteredOrder order) getProductCenterMap.





(** [center] stocks [product]. *)
Definition stocks (center product : string) : Prop :=
  exists products, In (center, products) CENTER_PRODUCTS /\ In product products.




(** The empty-order contract as the design words it: an order without a
    valid entry, or whose valid products are all outside the catalogue,
    needs no centre and costs 0. *)
Definition emptyOrderAsStated (order : object JS.value) : Prop :=
  (filteredOrder order = []
   \/ forall product,
        In product (Object_keys (filteredOrder order)) ->
        ~ In product catalogProducts) ->
  centersNeededOf order = []
  /\ IndexJs.calculateMinDeliveryCost order = zero.

(** The four orders answered by a fixed number. *)
Definition specialOrders : list (list string * Z) :=
  [ (["A"; "B"; "C"], 78%Z);
    (["A"; "B"; "C"; "D"], 168%Z);
    (["A"; "G"; "H"; "I"], 86%Z);
    (["A"; "B"; "C"; "G"; "H"; "I"], 118%Z) ]%string.


(** A stop that is not the hub. *)
Definition notHub (x : string) : bool := negb (String.eqb x HUB).

(** The answer of [index.js] outside its table of fixed answers, by the
    centres that are needed. *)
Definition indexCostOf (c1 c2 c3 : bool) : Z :=
  match c1, c2, c3 with
  | false, false, false => 0
  | true, false, false => 39
  | false, true, false => 117
  | false, false, true => 54
  | true, true, false => 129
  | true, false, true => 132
  | false, true, true => 114
  | true, true, true => 189
  end.

(** The same for the second entry point. *)
Definition part000CostOf (c1 c2 c3 : bool) : Z :=
  match c1, c2, c3 with
  | false, false, false => 0
  | true, false, false => 117
  | false, true, false => 98
  | false, false, true => 78
  | true, true, false => 254
  | true, false, true => 195
  | false, true, true => 195
  | true, true, true => 332
  end.

(** The second entry point with its two lookups by the text of the order
    taken out. *)
Definition withoutTextLookups
  (optimiser : loc -> list loc -> RouteResult loc)
  (order : object JS.value) : answer :=
  let filteredOrder := filteredOrder order in
  if List.length (Object_keys filteredOrder) =? 0 then Ans zero
  else
    let orderProducts := join "," (sort (Object_keys filteredOrder)) in
    match lookupCase Part000.productBasedCases orderProducts with
    | Some fixed => fixed
    | None =>
        let centersNeeded :=
          findCentersNeeded filteredOrder getProductCenterMap in
        if List.length centersNeeded =? 0 then Ans zero
        else
          Ans
            (Math_round
               (mul
                  (fold_left
                     (fun minCost startCenter =>
                        let c := cost (optimiser startCenter centersNeeded) in
                        if lt c minCost then c else minCost)
                     centers PosInf)
                  Part000.scalingFactor))
    end.

(** The last character of a string. *)
Fixpoint lastChar (s : string) : option ascii :=
  match s with
  | EmptyString => None
  | String c EmptyString => Some c
  | String _ rest => lastChar rest
  end.

(** No name of [Object.prototype] ends as [t] does. *)
Definition plainEnding (t : string) : bool :=
  match lastChar t with
  | Some c =>
      negb
        (existsb
           (fun name =>
              match lastChar name with
              | Some c' => Ascii.eqb c c'
              | None => false
              end)
           ObjectPrototype)
  | None => false
  end.

(** A location whose text, put last in a table key, keeps the key off the
    names of [Object.prototype]. *)
Definition plainStop {L : Type} {LL : Location L} (x : L) : Prop :=
  plainEnding (toText x) = true.


(** The candidate routes the two loops of [findOptimalRoute] run through,
    in the order they build them. *)
Definition candidateRoutes {L : Type} {LL : Location L} (startCenter : L)
  (perms : list (list L)) : list (list L) :=
  flat_map
    (fun perm => map (buildRoute startCenter perm) (masks (List.length perm)))
    perms.

(** Whether the cleaning loop keeps an entry of the raw order. *)
Definition kept (e : string * JS.value) : bool :=
  validEntry (snd e) && negb (String.eqb (fst e) "__proto__").

(** The ways to cut a string in two. *)
Fixpoint splits (k : string) : list (string * string) :=
  (EmptyString, k)
  :: match k with
     | EmptyString => []
     | String c k' => map (fun p => (String c (fst p), snd p)) (splits k')
     end.

(** Whether the catalogue gives [product] to [center]. *)
Definition stockedBy (center product : string) : bool :=
  match obj_get product getProductCenterMap with
  | Some c => String.eqb c center
  | None => false
  end.

(** No valid product of the order bears the name of a member of
    [Object.prototype]. *)
Definition plainProducts (order : object JS.value) : Prop :=
  forall product,
    In product (Object_keys (filteredOrder order)) ->
    ~ In product ObjectPrototype.

(** * Properties *)

Local Open Scope nat_scope.

(** ** Numbers *)

Lemma eqb_eq (a b : jsnum) : JS.eqb a b = true -> a = b.
Proof.
  destruct a, b; simpl; try discriminate; auto.
  intro H. f_equal. now apply Qc_eq_bool_correct.
Qed.

Lemma add_zero_l (a : jsnum) : add zero a = a.
Proof.
  destruct a; simpl; auto. f_equal. apply Qcplus_0_l.
Qed.

Lemma add_zero_r (a : jsnum) : add a zero = a.
Proof.
  destruct a; simpl; auto. f_equal. apply Qcplus_0_r.
Qed.

Lemma add_assoc (a b c : jsnum) : add a (add b c) = add (add a b) c.
Proof.
  destruct a, b, c; simpl; auto. f_equal. apply Qcplus_assoc.
Qed.

Lemma isCost_add (a b : jsnum) : isCost a -> isCost b -> isCost (add a b).
Proof. destruct a, b; simpl; auto. Qed.

Lemma add_PosInf_l (a : jsnum) : isCost a -> add PosInf a = PosInf.
Proof. destruct a; simpl; tauto. Qed.

Lemma add_PosInf_r (a : jsnum) : isCost a -> add a PosInf = PosInf.
Proof. destruct a; simpl; tauto. Qed.

Lemma le_refl (a : jsnum) : isCost a -> le a a.
Proof. destruct a; simpl; auto. intros _. apply Qcle_refl. Qed.

Lemma le_trans (a b c : jsnum) : le a b -> le b c -> le a c.
Proof.
  destruct a, b, c; simpl; auto; try tauto. apply Qcle_trans.
Qed.

Lemma le_antisym (a b : jsnum) : le a b -> le b a -> a = b.
Proof.
  destruct a, b; simpl; try tauto. intros H1 H2. f_equal.
  now apply Qcle_antisym.
Qed.

Lemma lt_true_le (a b : jsnum) : lt a b = true -> le a b.
Proof.
  destruct a, b; simpl; try discriminate; auto.
  destruct (q ?= q0)%Qc eqn:E; try discriminate. intros _.
  apply Qclt_le_weak. now apply Qclt_alt.
Qed.

Lemma lt_false_le (a b : jsnum) :
  isCost a -> isCost b -> lt a b = false -> le b a.
Proof.
  destruct a, b; simpl; try tauto; try discriminate.
  intros _ _. destruct (q ?= q0)%Qc eqn:E; try discriminate; intros _.
  - apply Qceq_alt in E. subst. apply Qcle_refl.
  - apply Qclt_le_weak. apply Qcgt_alt in E. exact E.
Qed.


(** ** Names of [Object.prototype] and table keys *)

Lemma append_nonempty (a b : string) :
  b <> EmptyString -> String.append a b <> EmptyString.
Proof.
  destruct a; simpl; [auto | discriminate].
Qed.

Lemma lastChar_append (a b : string) :
  b <> EmptyString -> lastChar (String.append a b) = lastChar b.
Proof.
  intro Hb. induction a as [|c a IH]; [reflexivity|].
  simpl. destruct (String.append a b) eqn:E.
  - exfalso. now apply (append_nonempty a b).
  - exact IH.
Qed.

Lemma lastChar_key (p t : string) :
  t <> EmptyString ->
  lastChar (String.append p (String.append "_" t)) = lastChar t.
Proof.
  intro Ht. rewrite lastChar_append.
  - now apply (lastChar_append "_").
  - now apply append_nonempty.
Qed.

Lemma inherited_In (k : string) :
  inherited k = true <-> In k ObjectPrototype.
Proof.
  unfold inherited. rewrite existsb_exists. split.
  - intros [x [Hx E]]. apply String.eqb_eq in E. now subst.
  - intro H. exists k. split; [exact H | apply String.eqb_refl].
Qed.

(** A key that ends as no name of [Object.prototype] does is not one. *)
Lemma plainEnding_key (p t : string) :
  plainEnding t = true ->
  inherited (String.append p (String.append "_" t)) = false.
Proof.
  intro H. unfold plainEnding in H.
  destruct (lastChar t) as [c|] eqn:Et; [|discriminate].
  assert (Hne : t <> EmptyString) by (intros ->; discriminate).
  destruct (inherited _) eqn:E; [|reflexivity].
  apply inherited_In in E.
  apply negb_true_iff in H.
  assert (Hex : existsb
                  (fun name =>
                     match lastChar name with
                     | Some c' => Ascii.eqb c c'
                     | None => false
                     end) ObjectPrototype = true).
  { apply existsb_exists. eexists. split; [exact E|].
    rewrite (lastChar_key p t Hne), Et. apply Ascii.eqb_refl. }
  congruence.
Qed.

Lemma memberText_plain (name : string) : plainEnding (memberText name) = true.
Proof.
  unfold memberText. destruct (String.eqb name "__proto__"); [reflexivity|].
  unfold plainEnding.
  rewrite !lastChar_append by (try apply append_nonempty; discriminate).
  reflexivity.
Qed.



(** ** Locations and sets *)

Section Locations.

Context {L : Type} {LL : Location L}.

Lemma strictEq_refl (x : L) : strictEq x x = true.
Proof. now apply strictEq_eq. Qed.

Lemma strictEq_neq (x y : L) : strictEq x y = false <-> x <> y.
Proof.
  rewrite <- (strictEq_eq x y). destruct (strictEq x y); split; intro H;
    congruence.
Qed.

Lemma fromString_inj (a b : string) :
  fromString (L := L) a = fromString b -> a = b.
Proof.
  intro H. rewrite <- (toText_fromString a), <- (toText_fromString b).
  now rewrite H.
Qed.

Lemma hub_plain : plainStop (fromString (L := L) HUB).
Proof.
  unfold plainStop. now rewrite toText_fromString.
Qed.

Lemma Set_has_In (x : L) (s : list L) :
  Set_has x s = true <-> In x s.
Proof.
  induction s as [|y s IH]; simpl.
  - split; [discriminate | tauto].
  - rewrite orb_true_iff, IH, strictEq_eq. split; intros [H|H]; auto.
Qed.

Lemma Set_has_ext (x : L) (s1 s2 : list L) :
  (forall y, In y s1 <-> In y s2) -> Set_has x s1 = Set_has x s2.
Proof.
  intro H. apply eq_true_iff_eq. now rewrite !Set_has_In.
Qed.

Lemma Set_add_In (x y : L) (s : list L) :
  In y (Set_add x s) <-> y = x \/ In y s.
Proof.
  unfold Set_add. destruct (Set_has x s) eqn:E.
  - apply Set_has_In in E. split; [auto|]. intros [->|H]; auto.
  - rewrite in_app_iff. simpl. split.
    + intros [H|[H|[]]]; auto.
    + intros [H|H]; auto.
Qed.

Lemma Set_add_NoDup (x : L) (s : list L) : NoDup s -> NoDup (Set_add x s).
Proof.
  intro H. unfold Set_add. destruct (Set_has x s) eqn:E; [exact H|].
  assert (Hx : ~ In x s).
  { intro Hin. apply Set_has_In in Hin. congruence. }
  apply NoDup_app; [exact H | repeat constructor; auto | ].
  intros a Ha [<-|[]]. contradiction.
Qed.

Lemma toVisit_In (startCenter : L) (centersNeeded : list L) (x : L) :
  In x (toVisit startCenter centersNeeded)
  <-> In x centersNeeded /\ x <> startCenter.
Proof.
  unfold toVisit. rewrite filter_In, negb_true_iff.
  now rewrite strictEq_neq.
Qed.

Lemma toVisit_Permutation (startCenter : L) (n1 n2 : list L) :
  NoDup n1 -> NoDup n2 -> (forall x, In x n1 <-> In x n2) ->
  Permutation (toVisit startCenter n1) (toVisit startCenter n2).
Proof.
  intros H1 H2 H. apply NoDup_Permutation.
  - now apply NoDup_filter.
  - now apply NoDup_filter.
  - intro x. rewrite !toVisit_In. now rewrite H.
Qed.

End Locations.

(** ** The cost evaluator *)

Section RouterFacts.

Context {L : Type} {LL : Location L}.
Variable DISTANCES : object Qc.
Variable COST : Qc.

(** Towards a plain stop the table is read at a key that is no name of
    [Object.prototype]: the distance is the entry, or [Infinity]. *)
Lemma getDistance_plain (a b : L) :
  plainStop b ->
  getDistance DISTANCES a b
  = Dist (match obj_get (tableKey (toText a) (toText b)) DISTANCES with
          | Some d => if truthy (Num d) then Num d else PosInf
          | None => PosInf
          end).
Proof.
  intro Hb. unfold getDistance, obj_read, tableKey.
  destruct (obj_get _ DISTANCES) as [d|].
  - now destruct (truthy (Num d)).
  - now rewrite (plainEnding_key (toText a) (toText b) Hb).
Qed.

Lemma getDistance_isCost (a b : L) :
  plainStop b -> isCost (getDistance DISTANCES a b).
Proof.
  intro Hb. rewrite (getDistance_plain a b Hb). simpl.
  destruct (obj_get _ DISTANCES) as [d|]; simpl; auto.
  destruct (Qc_eq_dec d (Q2Qc 0)); simpl; auto.
Qed.


Lemma fold_add_total (l : list jsnum) (acc : jsnum) :
  fold_left add l acc = add acc (total l).
Proof.
  revert acc. induction l as [|x l IH]; intro acc; simpl.
  - now rewrite add_zero_r.
  - now rewrite IH, add_assoc.
Qed.

Lemma routeCostLoop_fold (route : list L) (count i : nat) (acc : jsnum) :
  routeCostLoop DISTANCES COST route i count acc
  = fold_left add (map (legCost DISTANCES COST route) (seq i count)) acc.
Proof.
  revert i acc. induction count as [|count IH]; intros i acc.
  - reflexivity.
  - cbn [routeCostLoop seq map fold_left]. rewrite IH.
    replace (S i) with (i + 1) by lia. reflexivity.
Qed.

Lemma calculateRouteCost_total (route : list L) :
  calculateRouteCost DISTANCES COST route = sumOfLegs DISTANCES COST route.
Proof.
  unfold calculateRouteCost, sumOfLegs.
  now rewrite routeCostLoop_fold, fold_add_total, add_zero_l.
Qed.

Hypothesis COST_pos : (0 < COST)%Qc.

Lemma mul_PosInf_COST : mul PosInf (Num COST) = PosInf.
Proof.
  simpl. unfold scaleInf.
  now rewrite (proj1 (Qcgt_alt COST (Q2Qc 0)) COST_pos).
Qed.

Lemma mul_isCost (n : jsnum) : isCost n -> isCost (mul n (Num COST)).
Proof.
  destruct n; simpl; try contradiction; intros _; [exact I|].
  fold (mul PosInf (Num COST)). now rewrite mul_PosInf_COST.
Qed.

Lemma total_isCost (l : list jsnum) : Forall isCost l -> isCost (total l).
Proof.
  induction 1; simpl; auto. now apply isCost_add.
Qed.

Lemma total_PosInf (l : list jsnum) :
  Forall isCost l -> In PosInf l -> total l = PosInf.
Proof.
  induction 1 as [|x l Hx Hl IH]; intros Hin; [contradiction|].
  simpl. destruct Hin as [->|Hin].
  - apply add_PosInf_l. now apply total_isCost.
  - rewrite IH by assumption. now apply add_PosInf_r.
Qed.

(** A route is plain when every stop after the first is. *)
Lemma legCost_isCost (route : list L) (i : nat) :
  Forall plainStop (tl route) -> i + 1 < List.length route ->
  isCost (legCost DISTANCES COST route i).
Proof.
  intros Hplain Hi. unfold legCost. apply mul_isCost, getDistance_isCost.
  destruct route as [|x rest]; [simpl in Hi; lia|].
  simpl in Hplain, Hi. rewrite Nat.add_1_r. simpl.
  rewrite Forall_forall in Hplain. apply Hplain. apply nth_In. lia.
Qed.

Lemma legCosts_isCost (route : list L) :
  Forall plainStop (tl route) ->
  Forall isCost
    (map (legCost DISTANCES COST route) (seq 0 (List.length route - 1))).
Proof.
  intro Hplain. apply Forall_forall. intros x Hx. apply in_map_iff in Hx.
  destruct Hx as [i [<- Hi]]. apply in_seq in Hi.
  apply legCost_isCost; [exact Hplain | lia].
Qed.

Lemma calculateRouteCost_isCost (route : list L) :
  Forall plainStop (tl route) ->
  isCost (calculateRouteCost DISTANCES COST route).
Proof.
  intro H. rewrite calculateRouteCost_total.
  now apply total_isCost, legCosts_isCost.
Qed.


End RouterFacts.

(** ** The enumeration of permutations *)

Section Permutations.

Variable A : Type.

Lemma removeAt_split (l1 l2 : list A) (x : A) :
  removeAt (List.length l1) (l1 ++ x :: l2) = l1 ++ l2.
Proof.
  unfold removeAt. f_equal.
  - rewrite firstn_app, Nat.sub_diag, firstn_all. simpl. apply app_nil_r.
  - rewrite skipn_app, skipn_all2 by lia.
    replace (List.length l1 + 1 - List.length l1) with 1 by lia.
    reflexivity.
Qed.

Lemma removeAt_Permutation (arr : list A) (i : nat) (x : A) :
  nth_error arr i = Some x -> Permutation arr (x :: removeAt i arr).
Proof.
  intro H. apply nth_error_split in H. destruct H as [l1 [l2 [-> <-]]].
  rewrite removeAt_split. symmetry. apply Permutation_middle.
Qed.

Lemma removeAt_length (arr : list A) (i : nat) (x : A) :
  nth_error arr i = Some x ->
  S (List.length (removeAt i arr)) = List.length arr.
Proof.
  intro H. apply removeAt_Permutation in H. apply Permutation_length in H.
  simpl in H. congruence.
Qed.

Lemma getPermutationsFuel_short (fuel : nat) (arr : list A) :
  List.length arr <= 1 -> getPermutationsFuel fuel arr = [arr].
Proof.
  intro H. apply Nat.leb_le in H. destruct fuel; simpl; now rewrite H.
Qed.

Lemma getPermutationsFuel_long (fuel : nat) (arr : list A) :
  1 < List.length arr ->
  getPermutationsFuel (S fuel) arr
  = flat_map
      (fun i =>
         match nth_error arr i with
         | Some current =>
             map (cons current) (getPermutationsFuel fuel (removeAt i arr))
         | None => []
         end)
      (seq 0 (List.length arr)).
Proof.
  intro H. apply Nat.leb_gt in H. simpl. now rewrite H.
Qed.

Lemma Permutation_short (arr p : list A) :
  List.length arr <= 1 -> Permutation arr p -> arr = p.
Proof.
  intros Hlen Hp. destruct arr as [|x [|y arr]]; simpl in Hlen; try lia.
  - apply Permutation_nil in Hp. congruence.
  - apply Permutation_length_1_inv in Hp. congruence.
Qed.

Lemma getPermutationsFuel_spec (fuel : nat) :
  forall arr p : list A,
    List.length arr <= fuel ->
    (In p (getPermutationsFuel fuel arr) <-> Permutation arr p).
Proof.
  induction fuel as [|fuel IH]; intros arr p Hfuel.
  - rewrite getPermutationsFuel_short by lia. simpl. split.
    + intros [<-|[]]. apply Permutation_refl.
    + intro Hp. left. apply Permutation_short; [lia | exact Hp].
  - destruct (Nat.le_gt_cases (List.length arr) 1) as [Hshort|Hlong].
    + rewrite getPermutationsFuel_short by exact Hshort. simpl. split.
      * intros [<-|[]]. apply Permutation_refl.
      * intro Hp. left. now apply Permutation_short.
    + rewrite getPermutationsFuel_long by exact Hlong.
      rewrite in_flat_map. split.
      * intros [i [_ Hin]].
        destruct (nth_error arr i) as [current|] eqn:Hnth; [|contradiction].
        apply in_map_iff in Hin. destruct Hin as [rest [<- Hrest]].
        pose proof (removeAt_length _ _ _ Hnth) as Hlen.
        apply IH in Hrest; [|lia].
        rewrite (removeAt_Permutation _ _ _ Hnth). now apply perm_skip.
      * intro Hp. destruct p as [|current rest].
        { apply Permutation_length in Hp. simpl in Hp. lia. }
        assert (Hin : In current arr).
        { apply Permutation_in with (l := current :: rest);
            [now symmetry | now left]. }
        apply In_nth_error in Hin. destruct Hin as [i Hnth].
        exists i. split.
        { apply in_seq. split; [lia|]. simpl. apply nth_error_Some.
          congruence. }
        rewrite Hnth. apply in_map. apply IH.
        { pose proof (removeAt_length _ _ _ Hnth). lia. }
        apply Permutation_cons_inv with (a := current).
        now rewrite <- (removeAt_Permutation _ _ _ Hnth).
Qed.

(** [getPermutations] returns the permutations of its argument, all of
    them and nothing else. *)
Lemma getPermutations_spec (arr p : list A) :
  In p (getPermutations arr) <-> Permutation arr p.
Proof.
  unfold getPermutations. now apply getPermutationsFuel_spec.
Qed.

Lemma getPermutations_length (arr p : list A) :
  In p (getPermutations arr) -> List.length p = List.length arr.
Proof.
  intro H. apply getPermutations_spec in H. symmetry.
  now apply Permutation_length.
Qed.

End Permutations.

(** ** Masks and candidate routes *)

Lemma ToInt32_small (z : Z) :
  (- 2 ^ 31 <= z < 2 ^ 31)%Z -> ToInt32 z = z.
Proof.
  intro H. unfold ToInt32. rewrite Z.mod_small; lia.
Qed.

Lemma pow2_lt_31 (n : nat) : n < 31 -> (0 < 2 ^ Z.of_nat n < 2 ^ 31)%Z.
Proof.
  intro H. split.
  - apply Z.pow_pos_nonneg; lia.
  - apply Z.pow_lt_mono_r; lia.
Qed.

Lemma shl_one (n : nat) : n < 31 -> shl 1 (Z.of_nat n) = (2 ^ Z.of_nat n)%Z.
Proof.
  intro H. unfold shl. pose proof (pow2_lt_31 n H) as Hp.
  rewrite (ToInt32_small 1) by lia.
  rewrite Z.mod_small by lia.
  rewrite Z.shiftl_1_l. apply ToInt32_small. lia.
Qed.

Lemma masks_spec (n : nat) (mask : Z) :
  n < 31 -> (In mask (masks n) <-> (0 <= mask < 2 ^ Z.of_nat n)%Z).
Proof.
  intro H. unfold masks. rewrite shl_one by exact H.
  pose proof (pow2_lt_31 n H) as Hp.
  rewrite in_map_iff. split.
  - intros [k [<- Hk]]. apply in_seq in Hk. lia.
  - intro Hm. exists (Z.to_nat mask). split; [lia|]. apply in_seq. lia.
Qed.

Lemma hub_bit (mask : Z) (i : nat) :
  (0 <= mask < 2 ^ 31)%Z -> i < 32 ->
  Z.eqb (band (sar mask (Z.of_nat i)) 1) 0 = negb (Z.testbit mask (Z.of_nat i)).
Proof.
  intros Hm Hi. unfold band, sar.
  rewrite (ToInt32_small mask) by lia.
  rewrite (Z.mod_small (Z.of_nat i)) by lia.
  assert (Hs : (0 <= Z.shiftr mask (Z.of_nat i) < 2 ^ 31)%Z).
  { rewrite Z.shiftr_div_pow2 by lia. split.
    - apply Z.div_pos; [lia|]. apply Z.pow_pos_nonneg; lia.
    - apply Z.le_lt_trans with mask; [|lia].
      apply Z.div_le_upper_bound; [apply Z.pow_pos_nonneg; lia|].
      assert (1 <= 2 ^ Z.of_nat i)%Z
        by (pose proof (Z.pow_pos_nonneg 2 (Z.of_nat i)); lia).
      nia. }
  rewrite (ToInt32_small (Z.shiftr mask (Z.of_nat i))) by lia.
  rewrite (ToInt32_small 1) by lia.
  change 1%Z with (Z.ones 1) at 1. rewrite Z.land_ones by lia.
  change (2 ^ 1)%Z with 2%Z.
  rewrite <- Z.bit0_mod, Z.shiftr_spec by lia. simpl (0 + _)%Z.
  destruct (Z.testbit mask (Z.of_nat i)); reflexivity.
Qed.


Section CandidateFacts.

Context {L : Type} {LL : Location L}.

Lemma pushCenters_spec (mask : Z) (perm : list L) :
  (0 <= mask < 2 ^ 31)%Z ->
  forall (i : nat) (route : list L),
    i + List.length perm <= 32 ->
    pushCenters mask i perm route = route ++ specStops mask i perm.
Proof.
  intro Hm. induction perm as [|center rest IH]; intros i route Hi.
  - simpl. now rewrite app_nil_r.
  - simpl in Hi. cbn [pushCenters specStops].
    rewrite hub_bit by (assumption || lia).
    rewrite IH by lia. rewrite Nat.add_1_r.
    destruct (Z.testbit mask (Z.of_nat i)); simpl;
      now rewrite <- !app_assoc.
Qed.

Lemma buildRoute_spec (startCenter : L) (perm : list L) (mask : Z) :
  (0 <= mask < 2 ^ 31)%Z -> List.length perm <= 32 ->
  buildRoute startCenter perm mask = specRoute startCenter perm mask.
Proof.
  intros Hm Hlen. unfold buildRoute, specRoute.
  now rewrite pushCenters_spec by (assumption || lia).
Qed.

(** Every stop that [pushCenters] appends is the hub or an element of the
    permutation. *)
Lemma pushCenters_added (mask : Z) (perm : list L) :
  forall (i : nat) (route : list L),
    exists added,
      pushCenters mask i perm route = route ++ added
      /\ Forall (fun x => x = fromString HUB \/ In x perm) added.
Proof.
  induction perm as [|center rest IH]; intros i route.
  - exists []. split; [now rewrite app_nil_r | constructor].
  - cbn [pushCenters].
    destruct (IH (i + 1)
                ((if Z.eqb (band (sar mask (Z.of_nat i)) 1) 0 then route
                  else route ++ [fromString HUB]) ++ [center]))
      as [added [E H]].
    rewrite E.
    assert (H' : Forall (fun x => x = fromString HUB \/ In x (center :: rest))
                   added).
    { eapply Forall_impl; [|exact H]. simpl. intros a [Ha|Ha]; auto. }
    destruct (Z.eqb (band (sar mask (Z.of_nat i)) 1) 0).
    + exists (center :: added). split; [now rewrite <- app_assoc|].
      constructor; [right; now left | exact H'].
    + exists (fromString HUB :: center :: added). split.
      * now rewrite <- !app_assoc.
      * constructor; [now left|]. constructor; [right; now left | exact H'].
Qed.

Lemma buildRoute_added (startCenter : L) (perm : list L) (mask : Z) :
  exists added,
    buildRoute startCenter perm mask = startCenter :: added
    /\ Forall (fun x => x = fromString HUB \/ In x perm) added.
Proof.
  unfold buildRoute.
  destruct (pushCenters_added mask perm 0 [startCenter]) as [added [E H]].
  rewrite E. destruct (strictEq _ _).
  - exists added. now split.
  - exists (added ++ [fromString HUB]). split; [reflexivity|].
    apply Forall_app. split; [exact H|]. constructor; [now left | constructor].
Qed.

(** A candidate through plain centres is a plain route. *)
Lemma buildRoute_plain (startCenter : L) (perm : list L) (mask : Z) :
  Forall plainStop perm ->
  Forall plainStop (tl (buildRoute startCenter perm mask)).
Proof.
  intro Hp. destruct (buildRoute_added startCenter perm mask) as [added [E H]].
  rewrite E. simpl. eapply Forall_impl; [|exact H].
  intros a [->|Ha]; [apply hub_plain|].
  rewrite Forall_forall in Hp. now apply Hp.
Qed.

End CandidateFacts.

(** ** The search for the cheapest candidate *)

Lemma le_PosInf_inv (c : jsnum) : le PosInf c -> c = PosInf.
Proof. destruct c; simpl; tauto. Qed.

Lemma fold_left_flat_map {A B C : Type} (f : A -> C -> A) (g : B -> list C)
  (l : list B) (a : A) :
  fold_left f (flat_map g l) a
  = fold_left (fun a x => fold_left f (g x) a) l a.
Proof.
  revert a. induction l as [|x l IH]; intro a; simpl; [reflexivity|].
  now rewrite fold_left_app, IH.
Qed.

Lemma fold_left_map {A B C : Type} (f : A -> C -> A) (g : B -> C)
  (l : list B) (a : A) :
  fold_left f (map g l) a = fold_left (fun a x => f a (g x)) l a.
Proof.
  revert a. induction l as [|x l IH]; intro a; simpl; [reflexivity|].
  apply IH.
Qed.

Section OptimiserFacts.

Context {L : Type} {LL : Location L}.
Variable DISTANCES : object Qc.
Variable COST : Qc.
Hypothesis COST_pos : (0 < COST)%Qc.

(** The two nested loops are one pass over the candidate routes. *)
Lemma search_candidates (startCenter : L) (perms : list (list L))
  (best : RouteResult L) :
  fold_left
    (fun best perm =>
       fold_left
         (fun best mask =>
            keepBest DISTANCES COST best (buildRoute startCenter perm mask))
         (masks (List.length perm)) best)
    perms best
  = fold_left (keepBest DISTANCES COST) (candidateRoutes startCenter perms)
      best.
Proof.
  unfold candidateRoutes. rewrite fold_left_flat_map.
  revert best. induction perms as [|perm perms IH]; intro best; simpl.
  - reflexivity.
  - rewrite fold_left_map. apply IH.
Qed.

Lemma candidateRoutes_In (startCenter : L) (perms : list (list L))
  (r : list L) :
  In r (candidateRoutes startCenter perms)
  <-> exists perm mask,
        In perm perms /\ In mask (masks (List.length perm))
        /\ r = buildRoute startCenter perm mask.
Proof.
  unfold candidateRoutes. rewrite in_flat_map. split.
  - intros [perm [Hp Hr]]. apply in_map_iff in Hr.
    destruct Hr as [mask [<- Hm]]. now exists perm, mask.
  - intros [perm [mask [Hp [Hm ->]]]]. exists perm. split; [exact Hp|].
    now apply in_map.
Qed.

(** One pass of [keepBest] over routes whose costs are comparable keeps the
    least cost among the one it starts from and theirs. *)
Lemma keepBest_fold (routes : list (list L)) (best : RouteResult L) :
  isCost (cost best) ->
  Forall (fun r => isCost (calculateRouteCost DISTANCES COST r)) routes ->
  isCost (cost (fold_left (keepBest DISTANCES COST) routes best))
  /\ le (cost (fold_left (keepBest DISTANCES COST) routes best)) (cost best)
  /\ (forall r, In r routes ->
        le (cost (fold_left (keepBest DISTANCES COST) routes best))
          (calculateRouteCost DISTANCES COST r))
  /\ (cost (fold_left (keepBest DISTANCES COST) routes best) = cost best
      \/ exists r, In r routes
           /\ cost (fold_left (keepBest DISTANCES COST) routes best)
              = calculateRouteCost DISTANCES COST r).
Proof.
  intros Hbest Hall. revert best Hbest.
  induction Hall as [|r routes Hr Hall IH]; intros best Hbest; simpl.
  - repeat split; auto using le_refl. intros r [].
  - assert (Hstep : isCost (cost (keepBest DISTANCES COST best r))
                    /\ le (cost (keepBest DISTANCES COST best r)) (cost best)
                    /\ le (cost (keepBest DISTANCES COST best r))
                         (calculateRouteCost DISTANCES COST r)
                    /\ (cost (keepBest DISTANCES COST best r) = cost best
                        \/ cost (keepBest DISTANCES COST best r)
                           = calculateRouteCost DISTANCES COST r)).
    { unfold keepBest.
      destruct (lt (calculateRouteCost DISTANCES COST r) (cost best)) eqn:E;
        simpl.
      - repeat split; auto using le_refl. now apply lt_true_le.
      - repeat split; auto using le_refl. now apply lt_false_le. }
    destruct Hstep as [H1 [H2 [H3 H4]]].
    destruct (IH _ H1) as [I1 [I2 [I3 I4]]].
    split; [exact I1|]. split; [eapply le_trans; eassumption|]. split.
    + intros r' [<-|Hr'].
      * eapply le_trans; eassumption.
      * now apply I3.
    + destruct I4 as [I4|[r' [Hr' Hq]]].
      * rewrite I4. destruct H4 as [H4|H4]; [now left|].
        right. exists r. split; [now left | exact H4].
      * right. exists r'. split; [now right | exact Hq].
Qed.

Lemma candidates_isCost (startCenter : L) (tv : list L) :
  Forall plainStop tv ->
  Forall (fun r => isCost (calculateRouteCost DISTANCES COST r))
    (candidateRoutes startCenter (getPermutations tv)).
Proof.
  intro Hplain. apply Forall_forall. intros r Hr.
  apply candidateRoutes_In in Hr. destruct Hr as [perm [mask [Hp [_ ->]]]].
  apply calculateRouteCost_isCost; [exact COST_pos|].
  apply buildRoute_plain. apply getPermutations_spec in Hp.
  rewrite Forall_forall in *. intros x Hx. apply Hplain.
  apply Permutation_in with perm; [now symmetry | exact Hx].
Qed.

Lemma findOptimalRoute_general (startCenter : L) (centersNeeded : list L) :
  Forall plainStop centersNeeded ->
  toVisit startCenter centersNeeded <> [] ->
  List.length (toVisit startCenter centersNeeded) < 31 ->
  isMinimumOf (cost (findOptimalRoute DISTANCES COST startCenter centersNeeded))
    (candidateCost DISTANCES COST startCenter
       (toVisit startCenter centersNeeded)).
Proof.
  intros Hplain Hne Hlen. unfold findOptimalRoute.
  fold (toVisit startCenter centersNeeded).
  assert (Hplain' : Forall plainStop (toVisit startCenter centersNeeded)).
  { rewrite Forall_forall in *. intros x Hx. apply Hplain.
    now apply toVisit_In in Hx. }
  set (tv := toVisit startCenter centersNeeded) in *.
  destruct (List.length tv =? 0) eqn:E.
  { apply Nat.eqb_eq in E. destruct tv; [congruence | discriminate]. }
  rewrite search_candidates.
  destruct (keepBest_fold (candidateRoutes startCenter (getPermutations tv))
              (mkResult None PosInf) I
              (candidates_isCost startCenter tv Hplain'))
    as [H1 [_ [H3 H4]]].
  set (res := fold_left _ (candidateRoutes startCenter (getPermutations tv)) _)
    in *.
  assert (Hcand : forall perm mask,
             Permutation tv perm ->
             (0 <= mask < 2 ^ Z.of_nat (List.length tv))%Z ->
             In perm (getPermutations tv)
             /\ In mask (masks (List.length perm))
             /\ buildRoute startCenter perm mask
                = specRoute startCenter perm mask).
  { intros perm mask Hp Hm.
    pose proof (Permutation_length Hp) as Hl.
    pose proof (pow2_lt_31 _ Hlen).
    split; [now apply getPermutations_spec|]. split.
    - rewrite <- Hl. now apply masks_spec.
    - apply buildRoute_spec; lia. }
  assert (Hle : forall x,
             candidateCost DISTANCES COST startCenter tv x -> le (cost res) x).
  { intros x [perm [mask [Hp [Hm ->]]]].
    destruct (Hcand perm mask Hp Hm) as [Hin [Hmask Heq]].
    rewrite <- Heq. apply H3. apply candidateRoutes_In.
    now exists perm, mask. }
  split; [|exact Hle].
  destruct H4 as [H4|[r [Hin Heq]]].
  - simpl in H4.
    assert (Hc : candidateCost DISTANCES COST startCenter tv
                   (calculateRouteCost DISTANCES COST (specRoute startCenter tv 0))).
    { exists tv, 0%Z. split; [apply Permutation_refl|]. split; [|reflexivity].
      pose proof (pow2_lt_31 _ Hlen). lia. }
    pose proof (Hle _ Hc) as Hinf. rewrite H4 in Hinf.
    apply le_PosInf_inv in Hinf. rewrite H4, <- Hinf. exact Hc.
  - apply candidateRoutes_In in Hin.
    destruct Hin as [perm [mask [Hin [Hmask ->]]]].
    pose proof (getPermutations_length _ _ _ Hin) as Hl.
    apply getPermutations_spec in Hin.
    rewrite Hl in Hmask. apply masks_spec in Hmask; [|exact Hlen].
    exists perm, mask. split; [exact Hin|]. split; [exact Hmask|].
    rewrite Heq. f_equal. apply buildRoute_spec; [|lia].
    pose proof (pow2_lt_31 _ Hlen). lia.
Qed.

Lemma findOptimalRoute_empty (startCenter : L) (centersNeeded : list L) :
  toVisit startCenter centersNeeded = [] ->
  findOptimalRoute DISTANCES COST startCenter centersNeeded
  = if Set_has startCenter centersNeeded then
      mkResult (Some [startCenter; fromString HUB])
        (mul (getDistance DISTANCES startCenter (fromString HUB)) (Num COST))
    else mkResult (Some []) PosInf.
Proof.
  intro H. unfold findOptimalRoute.
  fold (toVisit startCenter centersNeeded). rewrite H. simpl.
  destruct (Set_has startCenter centersNeeded); [|reflexivity].
  f_equal. unfold calculateRouteCost. simpl.
  apply add_zero_l.
Qed.

Lemma candidateCost_Permutation (startCenter : L) (tv1 tv2 : list L)
  (c : jsnum) :
  Permutation tv1 tv2 ->
  candidateCost DISTANCES COST startCenter tv1 c ->
  candidateCost DISTANCES COST startCenter tv2 c.
Proof.
  intros Hp [perm [mask [H1 [H2 H3]]]]. exists perm, mask.
  split; [|split].
  - now rewrite <- Hp.
  - now rewrite <- (Permutation_length Hp).
  - exact H3.
Qed.

End OptimiserFacts.

Lemma isMinimumOf_unique (m1 m2 : jsnum) (P Q : jsnum -> Prop) :
  (forall c, P c <-> Q c) ->
  isMinimumOf m1 P -> isMinimumOf m2 Q -> m1 = m2.
Proof.
  intros Hpq [H1 L1] [H2 L2]. apply le_antisym.
  - apply L1. now apply Hpq.
  - apply L2. now apply Hpq.
Qed.

(** The centres among C1, C2 and C3 are plain stops. *)
Lemma centers_plain {L : Type} {LL : Location L} (l : list L) :
  incl l centers -> Forall plainStop l.
Proof.
  intro H. apply Forall_forall. intros x Hx. apply H in Hx.
  unfold centers in Hx. simpl in Hx. unfold plainStop.
  destruct Hx as [<-|[<-|[<-|[]]]]; now rewrite toText_fromString.
Qed.

Lemma centers_NoDup {L : Type} {LL : Location L} : NoDup (centers (L := L)).
Proof.
  unfold centers. simpl.
  repeat constructor; simpl;
    intuition (match goal with H : _ = _ |- _ => apply fromString_inj in H end;
               discriminate).
Qed.

Lemma toVisit_centers_length {L : Type} {LL : Location L} (startCenter : L)
  (centersNeeded : list L) :
  NoDup centersNeeded -> incl centersNeeded centers ->
  List.length (toVisit startCenter centersNeeded) <= 3.
Proof.
  intros Hnd Hincl.
  change 3 with (List.length (centers (L := L))). apply NoDup_incl_length.
  - now apply NoDup_filter.
  - intros x Hx. apply toVisit_In in Hx. apply Hincl. tauto.
Qed.

(** The cost found by the optimiser depends on the set of centres needed
    only, not on the order in which the set lists them. *)
Lemma findOptimalRoute_cost_ext {L : Type} {LL : Location L}
  (DISTANCES : object Qc) (COST : Qc) (startCenter : L) (n1 n2 : list L) :
  (0 < COST)%Qc ->
  Forall plainStop n1 ->
  NoDup n1 -> NoDup n2 -> (forall x, In x n1 <-> In x n2) ->
  List.length (toVisit startCenter n1) < 31 ->
  cost (findOptimalRoute DISTANCES COST startCenter n1)
  = cost (findOptimalRoute DISTANCES COST startCenter n2).
Proof.
  intros Hpos Hplain H1 H2 H Hlen.
  pose proof (toVisit_Permutation startCenter n1 n2 H1 H2 H) as Hp.
  assert (Hplain2 : Forall plainStop n2).
  { rewrite Forall_forall in *. intros x Hx. apply Hplain. now apply H. }
  destruct (toVisit startCenter n1) as [|c tv] eqn:E1.
  - pose proof (Permutation_nil Hp) as E2.
    rewrite !findOptimalRoute_empty by assumption.
    now rewrite (Set_has_ext startCenter n1 n2 H).
  - rewrite <- E1 in Hp, Hlen.
    apply isMinimumOf_unique
      with (P := candidateCost DISTANCES COST startCenter
                   (toVisit startCenter n1))
           (Q := candidateCost DISTANCES COST startCenter
                   (toVisit startCenter n2)).
    + intro x. split; apply candidateCost_Permutation;
        [exact Hp | now symmetry].
    + apply findOptimalRoute_general;
        [exact Hpos | exact Hplain | congruence | exact Hlen].
    + apply findOptimalRoute_general; [exact Hpos | exact Hplain2 | |].
      * intro E2. rewrite E2 in Hp. apply Permutation_sym in Hp.
        apply Permutation_nil in Hp. congruence.
      * now rewrite <- (Permutation_length Hp).
Qed.

(** C1. For every start and every set of centres needed (a duplicate-free
    list of centres) that leaves something to visit, the cost returned by
    [findOptimalRoute] is the minimum, over every permutation of the centres
    to visit and every one of the [2^n] masks, of the cost of the candidate
    route of the specification: the start, each element of the permutation
    in order with the hub immediately before it when its mask bit is set,
    and the hub appended unless the route already ends there. *)
Theorem findOptimalRoute_minimum
  (DISTANCES : object Qc) (COST : Qc)
  (startCenter : string) (centersNeeded : list string) :
  (0 < COST)%Qc ->
  NoDup centersNeeded -> incl centersNeeded centers ->
  toVisit startCenter centersNeeded <> [] ->
  isMinimumOf (cost (findOptimalRoute DISTANCES COST startCenter centersNeeded))
    (candidateCost DISTANCES COST startCenter
       (toVisit startCenter centersNeeded)).
Proof.
  intros Hpos Hnd Hincl Hne.
  apply findOptimalRoute_general; try assumption.
  - now apply centers_plain.
  - pose proof (toVisit_centers_length startCenter centersNeeded Hnd Hincl).
    lia.
Qed.

(** C5. When nothing is left to visit once the start is taken out of the
    centres needed: if the start is one of them, [findOptimalRoute] returns
    the route [[start, hub]] with cost [distance(start, hub)] times the unit
    cost; otherwise it returns the empty route with cost [Infinity]. *)
Theorem findOptimalRoute_nothing_to_visit
  (DISTANCES : object Qc) (COST : Qc)
  (startCenter : string) (centersNeeded : list string) :
  toVisit startCenter centersNeeded = [] ->
  (In startCenter centersNeeded ->
   findOptimalRoute DISTANCES COST startCenter centersNeeded
   = mkResult (Some [startCenter; HUB])
       (mul (getDistance DISTANCES startCenter HUB) (Num COST)))
  /\ (~ In startCenter centersNeeded ->
      findOptimalRoute DISTANCES COST startCenter centersNeeded
      = mkResult (Some []) PosInf).
Proof.
  intro H. rewrite (findOptimalRoute_empty DISTANCES COST _ _ H).
  split; intro Hin.
  - apply Set_has_In in Hin. now rewrite Hin.
  - destruct (Set_has startCenter centersNeeded) eqn:E; [|reflexivity].
    apply Set_has_In in E. contradiction.
Qed.

(** ** Objects *)

Section Objects.

Variable V : Type.

Lemma obj_get_In (k : string) (o : object V) (v : V) :
  obj_get k o = Some v -> In (k, v) o.
Proof.
  induction o as [|[k' v'] o IH]; simpl; [discriminate|].
  destruct (String.eqb k k') eqn:E.
  - apply String.eqb_eq in E. intro H. left. congruence.
  - auto.
Qed.

Lemma obj_get_None (k : string) (o : object V) :
  obj_get k o = None <-> ~ In k (Object_keys o).
Proof.
  induction o as [|[k' v'] o IH]; simpl; [tauto|].
  destruct (String.eqb k k') eqn:E.
  - apply String.eqb_eq in E. split; [discriminate | intuition congruence].
  - apply String.eqb_neq in E. rewrite IH. intuition congruence.
Qed.

Lemma obj_get_Some (k : string) (o : object V) :
  In k (Object_keys o) -> exists v, obj_get k o = Some v.
Proof.
  intro H. destruct (obj_get k o) as [v|] eqn:E; [now exists v|].
  apply obj_get_None in E. contradiction.
Qed.

Lemma obj_set_new (k : string) (v : V) (o : object V) :
  ~ In k (Object_keys o) -> obj_set k v o = o ++ [(k, v)].
Proof.
  induction o as [|[k' v'] o IH]; simpl; [reflexivity|].
  intro H. destruct (String.eqb k k') eqn:E.
  - apply String.eqb_eq in E. intuition congruence.
  - rewrite IH; tauto.
Qed.

Lemma obj_set_keys (k : string) (v : V) (o : object V) :
  Object_keys (obj_set k v o) = Set_add k (Object_keys o).
Proof.
  unfold Set_add.
  induction o as [|[k' v'] o IH]; simpl; [reflexivity|].
  destruct (String.eqb k k') eqn:E; simpl; [reflexivity|].
  rewrite IH. now destruct (Set_has k (Object_keys o)).
Qed.

Lemma obj_set_In (k : string) (v : V) (o : object V) (k' : string) (v' : V) :
  In (k', v') (obj_set k v o) -> (k' = k /\ v' = v) \/ In (k', v') o.
Proof.
  induction o as [|[k0 v0] o IH]; simpl.
  - intros [H|[]]. inversion H. auto.
  - destruct (String.eqb k k0) eqn:E; simpl.
    + apply String.eqb_eq in E. intros [H|H]; [|auto].
      inversion H; subst. auto.
    + intros [H|H]; [auto|]. apply IH in H. tauto.
Qed.

(** An assignment defines the property, unless the name is [__proto__] and
    the object has no own property of that name. *)
Lemma obj_assign_set (k : string) (v : V) (o : object V) :
  k <> "__proto__"%string \/ In k (Object_keys o) ->
  obj_assign k v o = obj_set k v o.
Proof.
  intro H. unfold obj_assign. destruct (obj_get k o) eqn:E; [reflexivity|].
  destruct H as [H|H].
  - apply String.eqb_neq in H. now rewrite H.
  - apply obj_get_None in E. contradiction.
Qed.

Lemma obj_assign_proto (v : V) (o : object V) :
  ~ In "__proto__"%string (Object_keys o) ->
  obj_assign "__proto__" v o = o.
Proof.
  intro H. unfold obj_assign. apply obj_get_None in H. now rewrite H.
Qed.

(** A read that finds an own property, an inherited one, or nothing. *)
Lemma obj_read_own (k : string) (o : object V) (v : V) :
  obj_get k o = Some v -> obj_read k o = Own v.
Proof. unfold obj_read. now intros ->. Qed.

Lemma obj_read_Own (k : string) (o : object V) (v : V) :
  obj_read k o = Own v <-> obj_get k o = Some v.
Proof.
  unfold obj_read. destruct (obj_get k o); [|destruct (inherited k)];
    split; congruence.
Qed.

Lemma obj_read_Inherited (k : string) (o : object V) (name : string) :
  obj_read k o = Inherited name
  <-> obj_get k o = None /\ inherited k = true /\ name = k.
Proof.
  unfold obj_read. destruct (obj_get k o); [|destruct (inherited k)];
    split; try congruence.
  - intros [H _]. discriminate.
  - intro H. inversion H. auto.
  - intros [_ [_ ->]]. reflexivity.
  - intros [_ [H _]]. discriminate.
Qed.

Lemma obj_read_Undefined (k : string) (o : object V) :
  obj_read k o = Undefined <-> obj_get k o = None /\ inherited k = false.
Proof.
  unfold obj_read. destruct (obj_get k o); [|destruct (inherited k)];
    split; try congruence; try tauto.
  - intros [H _]. discriminate.
  - intros [_ H]. discriminate.
Qed.

End Objects.

(** ** The order normaliser *)




Lemma filteredOrder_snoc_raw (order : object JS.value) (k : string)
  (v : JS.value) :
  filteredOrder (order ++ [(k, v)])
  = if validEntry v then obj_assign k (Number v) (filteredOrder order)
    else filteredOrder order.
Proof.
  unfold filteredOrder. now rewrite fold_left_app.
Qed.

(** The cleaned order never has a property named [__proto__]. *)
Lemma filteredOrder_no_proto (order : object JS.value) :
  ~ In "__proto__"%string (Object_keys (filteredOrder order)).
Proof.
  induction order as [|[k v] order IH] using rev_ind.
  - simpl. tauto.
  - rewrite filteredOrder_snoc_raw. destruct (validEntry v); [|exact IH].
    destruct (String.eqb k "__proto__") eqn:E.
    + apply String.eqb_eq in E. subst k. now rewrite obj_assign_proto.
    + apply String.eqb_neq in E. rewrite obj_assign_set by now left.
      rewrite obj_set_keys, Set_add_In. intros [H|H]; [congruence | auto].
Qed.

Lemma filteredOrder_snoc (order : object JS.value) (k : string)
  (v : JS.value) :
  filteredOrder (order ++ [(k, v)])
  = if kept (k, v) then obj_set k (Number v) (filteredOrder order)
    else filteredOrder order.
Proof.
  rewrite filteredOrder_snoc_raw. unfold kept. simpl.
  destruct (validEntry v); [|reflexivity]. simpl.
  destruct (String.eqb k "__proto__") eqn:E; simpl.
  - apply String.eqb_eq in E. subst k.
    apply obj_assign_proto, filteredOrder_no_proto.
  - apply String.eqb_neq in E. apply obj_assign_set. now left.
Qed.

Lemma filteredOrder_keys_NoDup (order : object JS.value) :
  NoDup (Object_keys (filteredOrder order)).
Proof.
  induction order as [|[k v] order IH] using rev_ind.
  - constructor.
  - rewrite filteredOrder_snoc. destruct (kept (k, v)); [|exact IH].
    rewrite obj_set_keys. now apply Set_add_NoDup.
Qed.

Lemma filteredOrder_positive (order : object JS.value) (k : string)
  (q : jsnum) :
  In (k, q) (filteredOrder order) -> gt q zero = true.
Proof.
  induction order as [|[k' v] order IH] using rev_ind.
  - intros [].
  - rewrite filteredOrder_snoc. destruct (kept (k', v)) eqn:E; [|exact IH].
    intro H. apply obj_set_In in H. destruct H as [[_ ->]|H]; [|auto].
    unfold kept, validEntry in E. simpl in E.
    repeat (apply andb_true_iff in E; destruct E as [E ?]). assumption.
Qed.

Lemma filteredOrder_keys (order : object JS.value) (k : string) :
  In k (Object_keys (filteredOrder order))
  <-> exists v, In (k, v) order /\ kept (k, v) = true.
Proof.
  induction order as [|[k' v'] order IH] using rev_ind.
  - simpl. split; [tauto | intros [v [[] _]]].
  - rewrite filteredOrder_snoc. destruct (kept (k', v')) eqn:E.
    + rewrite obj_set_keys, Set_add_In, IH. split.
      * intros [->|[v [Hin Hv]]].
        { exists v'. split; [|exact E]. apply in_or_app. right. now left. }
        { exists v. split; [|exact Hv]. apply in_or_app. now left. }
      * intros [v [Hin Hv]]. apply in_app_or in Hin.
        destruct Hin as [Hin|[Heq|[]]].
        { right. now exists v. }
        { inversion Heq. now left. }
    + rewrite IH. split.
      * intros [v [Hin Hv]]. exists v. split; [|exact Hv].
        apply in_or_app. now left.
      * intros [v [Hin Hv]]. apply in_app_or in Hin.
        destruct Hin as [Hin|[Heq|[]]].
        { now exists v. }
        { inversion Heq; subst. congruence. }
Qed.

(** On an object (no property name twice), the cleaning loop is a filter
    followed by the coercion of the values, in property order. *)
Lemma filteredOrder_filter (order : object JS.value) :
  NoDup (Object_keys order) ->
  filteredOrder order
  = map (fun e => (fst e, Number (snd e))) (filter kept order).
Proof.
  induction order as [|[k v] order IH] using rev_ind; intro Hnd.
  - reflexivity.
  - unfold Object_keys in Hnd. rewrite map_app in Hnd. simpl in Hnd.
    apply NoDup_remove in Hnd. rewrite app_nil_r in Hnd.
    destruct Hnd as [Hnd Hnotin].
    rewrite filteredOrder_snoc, filter_app, map_app. simpl.
    destruct (kept (k, v)) eqn:E; simpl.
    + rewrite obj_set_new.
      * now rewrite IH.
      * rewrite filteredOrder_keys. intros [v0 [Hin _]]. apply Hnotin.
        apply in_map_iff. now exists (k, v0).
    + rewrite app_nil_r. now apply IH.
Qed.

Lemma kept_iff (k : string) (v : JS.value) :
  kept (k, v) = true <-> validEntry v = true /\ k <> "__proto__"%string.
Proof.
  unfold kept. simpl.
  now rewrite andb_true_iff, negb_true_iff, String.eqb_neq.
Qed.

(** ** Centres needed *)

Lemma findCentersNeeded_snoc (order : object jsnum) (pcm : object string)
  (product : string) (quantity : jsnum) :
  findCentersNeeded (order ++ [(product, quantity)]) pcm
  = if gt quantity zero then
      match truthyCenter (obj_read product pcm) with
      | Some center => Set_add center (findCentersNeeded order pcm)
      | None => findCentersNeeded order pcm
      end
    else findCentersNeeded order pcm.
Proof.
  unfold findCentersNeeded. now rewrite fold_left_app.
Qed.

Lemma findCentersNeeded_NoDup (order : object jsnum) (pcm : object string) :
  NoDup (findCentersNeeded order pcm).
Proof.
  induction order as [|[k q] order IH] using rev_ind.
  - constructor.
  - rewrite findCentersNeeded_snoc. destruct (gt q zero); [|exact IH].
    destruct (truthyCenter (obj_read k pcm)); [|exact IH].
    now apply Set_add_NoDup.
Qed.

Lemma findCentersNeeded_In (order : object jsnum) (pcm : object string)
  (c : loc) :
  In c (findCentersNeeded order pcm)
  <-> exists k q,
        In (k, q) order /\ gt q zero = true
        /\ truthyCenter (obj_read k pcm) = Some c.
Proof.
  induction order as [|[k' q'] order IH] using rev_ind.
  - simpl. split; [tauto | intros [k [q [[] _]]]].
  - rewrite findCentersNeeded_snoc.
    assert (Hold : (exists k q, In (k, q) order /\ gt q zero = true
                     /\ truthyCenter (obj_read k pcm) = Some c)
                   -> exists k q, In (k, q) (order ++ [(k', q')])
                        /\ gt q zero = true
                        /\ truthyCenter (obj_read k pcm) = Some c).
    { intros [k [q [Hin H]]]. exists k, q. split; [|exact H].
      apply in_or_app. now left. }
    assert (Hsplit : forall k q, In (k, q) (order ++ [(k', q')]) ->
                       In (k, q) order \/ (k = k' /\ q = q')).
    { intros k q Hin. apply in_app_or in Hin.
      destruct Hin as [Hin|[Heq|[]]]; [now left|]. inversion Heq. auto. }
    destruct (gt q' zero) eqn:Eq.
    + destruct (truthyCenter (obj_read k' pcm)) as [center|] eqn:Ec.
      * rewrite Set_add_In, IH. split.
        { intros [->|H]; [|auto]. exists k', q'.
          split; [apply in_or_app; right; now left | auto]. }
        { intros [k [q [Hin [Hq Hc]]]].
          destruct (Hsplit _ _ Hin) as [Hin'|[-> ->]].
          - right. now exists k, q.
          - left. congruence. }
      * rewrite IH. split; [exact Hold|].
        intros [k [q [Hin [Hq Hc]]]].
        destruct (Hsplit _ _ Hin) as [Hin'|[-> ->]]; [|congruence].
        now exists k, q.
    + rewrite IH. split; [exact Hold|].
      intros [k [q [Hin [Hq Hc]]]].
      destruct (Hsplit _ _ Hin) as [Hin'|[-> ->]]; [|congruence].
      now exists k, q.
Qed.

Lemma catalog_keys : Object_keys getProductCenterMap = catalogProducts.
Proof. reflexivity. Qed.

(** What reading the catalogue at [product] adds to the set: the centre
    that stocks a product of the catalogue, or the member of
    [Object.prototype] that [product] names. *)
Lemma catalog_centers (product : string) (c : loc) :
  truthyCenter (obj_read product getProductCenterMap) = Some c ->
  (exists center : string,
     c = Str center
     /\ obj_get product getProductCenterMap = Some center
     /\ In product catalogProducts /\ In center centers)
  \/ (c = Proto product /\ inherited product = true
      /\ ~ In product catalogProducts).
Proof.
  unfold truthyCenter.
  destruct (obj_read product getProductCenterMap) as [s|name|] eqn:E;
    [| |discriminate].
  - apply obj_read_Own in E.
    destruct (String.eqb s EmptyString); [discriminate|].
    intro H. inversion H; subst. left. exists s. split; [reflexivity|].
    split; [exact E|]. apply obj_get_In in E. split.
    + rewrite <- catalog_keys. apply in_map_iff. now exists (product, s).
    + simpl in E. unfold centers. simpl.
      repeat (destruct E as [E|E]; [inversion E; subst; tauto|]).
      contradiction.
  - apply obj_read_Inherited in E. destruct E as [E1 [E2 ->]].
    intro H. inversion H; subst. right. split; [reflexivity|].
    split; [exact E2|]. rewrite <- catalog_keys. now apply obj_get_None.
Qed.

(** The centres needed by an order: what the catalogue reads at its valid
    products. *)
Lemma centersNeededOf_In (order : object JS.value) (c : loc) :
  In c (centersNeededOf order)
  <-> exists product,
        In product (Object_keys (filteredOrder order))
        /\ truthyCenter (obj_read product getProductCenterMap) = Some c.
Proof.
  unfold centersNeededOf. rewrite findCentersNeeded_In. split.
  - intros [k [q [Hin [_ Hc]]]]. exists k. split; [|exact Hc].
    apply in_map_iff. now exists (k, q).
  - intros [k [Hin Hc]]. apply in_map_iff in Hin.
    destruct Hin as [[k' q] [Hk Hin]]. simpl in Hk. subst k'.
    exists k, q. split; [exact Hin|]. split; [|exact Hc].
    now apply filteredOrder_positive with (order := order) (k := k).
Qed.

Lemma centersNeededOf_NoDup (order : object JS.value) :
  NoDup (centersNeededOf order).
Proof. apply findCentersNeeded_NoDup. Qed.

(** Every element of the set is a centre or a member of
    [Object.prototype]. *)
Lemma centersNeededOf_range (order : object JS.value) :
  incl (centersNeededOf order)
    (map Str centers ++ map Proto ObjectPrototype).
Proof.
  intros c Hc. apply centersNeededOf_In in Hc.
  destruct Hc as [k [_ Hc]]. apply catalog_centers in Hc.
  apply in_or_app.
  destruct Hc as [[center [-> [_ [_ H]]]]|[-> [H _]]].
  - left. now apply in_map.
  - right. apply in_map. now apply inherited_In.
Qed.

Lemma centersNeededOf_plain (order : object JS.value) :
  Forall plainStop (centersNeededOf order).
Proof.
  apply Forall_forall. intros c Hc. apply centersNeededOf_range in Hc.
  apply in_app_or in Hc. destruct Hc as [Hc|Hc]; apply in_map_iff in Hc.
  - destruct Hc as [s [<- Hs]]. unfold centers in Hs. simpl in Hs.
    destruct Hs as [<-|[<-|[<-|[]]]]; reflexivity.
  - destruct Hc as [name [<- _]]. apply memberText_plain.
Qed.




(** ** Sorting the product keys *)

Lemma string_leb_trans (s1 s2 s3 : string) :
  String.leb s1 s2 = true -> String.leb s2 s3 = true ->
  String.leb s1 s3 = true.
Proof.
  unfold String.leb. revert s2 s3.
  induction s1 as [|c1 s1 IH]; intros [|c2 s2] [|c3 s3]; simpl;
    try congruence; auto.
  unfold Ascii.compare.
  destruct (N.compare_spec (N_of_ascii c1) (N_of_ascii c2)) as [E12|E12|E12];
  destruct (N.compare_spec (N_of_ascii c2) (N_of_ascii c3)) as [E23|E23|E23];
  destruct (N.compare_spec (N_of_ascii c1) (N_of_ascii c3)) as [E13|E13|E13];
    try congruence; try lia; auto.
  apply IH.
Qed.

Lemma sorted_unique (l1 l2 : list string) :
  StronglySorted (fun x y => is_true (String.leb x y)) l1 ->
  StronglySorted (fun x y => is_true (String.leb x y)) l2 ->
  Permutation l1 l2 -> l1 = l2.
Proof.
  revert l2. induction l1 as [|a l1 IH]; intros l2 S1 S2 Hp.
  - apply Permutation_nil in Hp. congruence.
  - destruct l2 as [|b l2].
    { apply Permutation_sym, Permutation_nil in Hp. discriminate. }
    inversion S1 as [|? ? S1' F1]; subst.
    inversion S2 as [|? ? S2' F2]; subst.
    assert (Hab : a = b).
    { rewrite Forall_forall in F1, F2.
      assert (Ha : In a (b :: l2))
        by (apply Permutation_in with (l := a :: l1); [exact Hp | now left]).
      assert (Hb : In b (a :: l1))
        by (apply Permutation_in with (l := b :: l2);
            [now symmetry | now left]).
      destruct Ha as [Ha|Ha]; [congruence|].
      destruct Hb as [Hb|Hb]; [congruence|].
      apply String.leb_antisym; [now apply F1 | now apply F2]. }
    subst b. f_equal. apply IH; try assumption.
    now apply Permutation_cons_inv with (a := a).
Qed.

Lemma sort_StronglySorted (l : list string) :
  StronglySorted (fun x y => is_true (String.leb x y)) (sort l).
Proof.
  apply StringSort.StronglySorted_sort.
  intros x y z. apply string_leb_trans.
Qed.

Lemma sort_Permutation (l1 l2 : list string) :
  Permutation l1 l2 -> sort l1 = sort l2.
Proof.
  intro Hp. apply sorted_unique; try apply sort_StronglySorted.
  unfold sort. rewrite <- !StringSort.Permuted_sort. exact Hp.
Qed.

Lemma sort_In (l : list string) (x : string) : In x (sort l) <-> In x l.
Proof.
  unfold sort. split; apply Permutation_in;
    [symmetry|]; apply StringSort.Permuted_sort.
Qed.


(** ** The tables of fixed answers *)

Lemma entries_eqb_keys (a b : object jsnum) :
  Part000.entries_eqb a b = true -> Object_keys a = Object_keys b.
Proof.
  unfold Part000.entries_eqb. rewrite andb_true_iff, Nat.eqb_eq.
  revert b. induction a as [|[k v] a IH]; intros [|[k' v'] b]; simpl;
    try (intros [H _]; discriminate); [reflexivity|].
  rewrite !andb_true_iff, String.eqb_eq. intros [Hlen [[Hk _] Hall]].
  subst k'. f_equal. apply IH. split; [congruence | exact Hall].
Qed.

Lemma sortedOrder_fold_keys (f : object jsnum) (ks : list string) :
  NoDup ks -> incl ks (Object_keys f) ->
  ~ In "__proto__"%string ks ->
  forall acc : object jsnum,
    (forall k, In k ks -> ~ In k (Object_keys acc)) ->
    Object_keys
      (fold_left
         (fun sortedOrder key =>
            match obj_get key f with
            | Some v => obj_assign key v sortedOrder
            | None => sortedOrder
            end)
         ks acc)
    = Object_keys acc ++ ks.
Proof.
  induction 1 as [|k ks Hk Hnd IH]; intros Hincl Hproto acc Hacc; simpl.
  - now rewrite app_nil_r.
  - assert (Hkp : k <> "__proto__"%string).
    { intros ->. apply Hproto. now left. }
    destruct (obj_get k f) as [v|] eqn:E.
    + rewrite (obj_assign_set _ k v acc) by now left.
      rewrite IH.
      * rewrite obj_set_new by (apply Hacc; now left).
        unfold Object_keys. rewrite map_app, <- app_assoc. reflexivity.
      * intros x Hx. apply Hincl. now right.
      * intro Hx. apply Hproto. now right.
      * intros x Hx. rewrite obj_set_new by (apply Hacc; now left).
        unfold Object_keys. rewrite map_app, in_app_iff. simpl.
        intros [H|[H|[]]].
        { apply (Hacc x); [now right | exact H]. }
        { congruence. }
    + apply obj_get_None in E. exfalso. apply E, Hincl. now left.
Qed.

Lemma sortedOrder_keys (order : object JS.value) :
  Object_keys (Part000.sortedOrder (filteredOrder order))
  = sort (Object_keys (filteredOrder order)).
Proof.
  unfold Part000.sortedOrder.
  rewrite sortedOrder_fold_keys; [reflexivity | | | | tauto].
  - apply Permutation_NoDup with (l := Object_keys (filteredOrder order));
      [apply StringSort.Permuted_sort | apply filteredOrder_keys_NoDup].
  - intros x Hx. now apply sort_In.
  - rewrite sort_In. apply filteredOrder_no_proto.
Qed.

(** A hit in the table keyed by the text of the order is a hit, with the
    same answer, in the table keyed by its sorted products. *)
Lemma lookupText_products (f : object jsnum) (ks : list string) (v : jsnum) :
  Object_keys f = ks ->
  Part000.lookupText Part000.testCases f = Some v ->
  lookupCase Part000.productBasedCases (join "," (sort ks)) = Some (Ans v).
Proof.
  intros Hks. unfold Part000.testCases. cbn [Part000.lookupText].
  repeat match goal with
  | |- context [Part000.entries_eqb f ?e] =>
      let E := fresh "E" in
      destruct (Part000.entries_eqb f e) eqn:E;
        [apply entries_eqb_keys in E; rewrite E in Hks; subst ks;
         intro H; vm_compute in H; injection H as <-; reflexivity |]
  end.
  discriminate.
Qed.

Lemma Part000_cases (optimiser : loc -> list loc -> RouteResult loc)
  (order : object JS.value) :
  Part000.calculateMinDeliveryCostWith optimiser order
  = if List.length (Object_keys (filteredOrder order)) =? 0 then Ans zero
    else
      match lookupCase Part000.productBasedCases (orderProducts order) with
      | Some fixed => fixed
      | None =>
          if List.length (centersNeededOf order) =? 0 then Ans zero
          else
            Ans
              (Math_round
                 (mul
                    (fold_left
                       (fun minCost startCenter =>
                          let c :=
                            cost (optimiser startCenter
                                    (centersNeededOf order)) in
                          if lt c minCost then c else minCost)
                       centers PosInf)
                    Part000.scalingFactor))
      end.
Proof.
  unfold Part000.calculateMinDeliveryCostWith, orderProducts.
  destruct (List.length (Object_keys (filteredOrder order)) =? 0);
    [reflexivity|].
  destruct (Part000.lookupText Part000.testCases (filteredOrder order))
    as [v|] eqn:E1.
  { now rewrite (lookupText_products _ _ _ eq_refl E1). }
  destruct (Part000.lookupText Part000.testCases
              (Part000.sortedOrder (filteredOrder order))) as [v|] eqn:E2.
  { pose proof (sortedOrder_keys order) as Hk.
    pose proof (lookupText_products _ _ _ Hk E2) as H.
    rewrite (sort_Permutation (sort (Object_keys (filteredOrder order)))
               (Object_keys (filteredOrder order))) in H.
    - now rewrite H.
    - symmetry. apply StringSort.Permuted_sort. }
  reflexivity.
Qed.

Lemma special_lookup (keys : list string) (fixed : Z) :
  In (keys, fixed) specialOrders ->
  lookupCase IndexJs.testCases (join "," keys) = Some (Ans (ofZ fixed))
  /\ lookupCase Part000.productBasedCases (join "," keys)
     = Some (Ans (ofZ fixed))
  /\ In "A"%string keys.
Proof.
  unfold specialOrders. simpl.
  intros [H|[H|[H|[H|[]]]]]; inversion H; subst;
    (split; [reflexivity | split; [reflexivity | now left]]).
Qed.



Lemma product_A_needs_C1 (order : object JS.value) :
  In "A"%string (Object_keys (filteredOrder order)) ->
  In (Str "C1") (centersNeededOf order).
Proof.
  intro H. apply centersNeededOf_In. exists "A"%string. now split.
Qed.

Lemma length_not_zero (A : Type) (l : list A) (x : A) :
  In x l -> (List.length l =? 0) = false.
Proof.
  destruct l; [contradiction | reflexivity].
Qed.


(** The four orders of [runTests], with the answers the two files expect. *)
Example runTests_orders :
  let orders : list (object JS.value) :=
    [ [("A", VNumber (ofZ 1)); ("G", VNumber (ofZ 1));
       ("H", VNumber (ofZ 1)); ("I", VNumber (ofZ 3))];
      [("A", VNumber (ofZ 1)); ("B", VNumber (ofZ 1)); ("C", VNumber (ofZ 1));
       ("G", VNumber (ofZ 1)); ("H", VNumber (ofZ 1)); ("I", VNumber (ofZ 1))];
      [("A", VNumber (ofZ 1)); ("B", VNumber (ofZ 1)); ("C", VNumber (ofZ 1))];
      [("A", VNumber (ofZ 1)); ("B", VNumber (ofZ 1)); ("C", VNumber (ofZ 1));
       ("D", VNumber (ofZ 1))] ]%string in
  map IndexJs.calculateMinDeliveryCost orders
  = map Ans [ofZ 86; ofZ 118; ofZ 78; ofZ 168]
  /\ map Part000.calculateMinDeliveryCost orders
     = map Ans [ofZ 86; ofZ 118; ofZ 78; ofZ 168].
Proof. split; vm_compute; reflexivity. Qed.

(** ** The minimum over the starting centres *)

Lemma findOptimalRoute_isCost {L : Type} {LL : Location L}
  (DISTANCES : object Qc) (COST : Qc) (startCenter : L)
  (centersNeeded : list L) :
  (0 < COST)%Qc ->
  Forall plainStop centersNeeded ->
  isCost (cost (findOptimalRoute DISTANCES COST startCenter centersNeeded)).
Proof.
  intros Hpos Hplain. unfold findOptimalRoute.
  destruct (List.length _ =? 0).
  - destruct (Set_has startCenter centersNeeded); simpl; [|exact I].
    apply calculateRouteCost_isCost; [exact Hpos|]. simpl.
    constructor; [apply hub_plain | constructor].
  - rewrite search_candidates.
    apply (keepBest_fold DISTANCES COST); [exact I|].
    apply candidates_isCost; [exact Hpos|].
    rewrite Forall_forall in *. intros x Hx. apply Hplain.
    apply filter_In in Hx. tauto.
Qed.

Lemma Math_min_isCost (a b : jsnum) :
  isCost a -> isCost b -> Math_min a b = if lt b a then b else a.
Proof. destruct a, b; simpl; tauto. Qed.

Section Starts.

Variable X : Type.
Variable f : X -> jsnum.
Hypothesis f_isCost : forall s, isCost (f s).


Lemma fold_Math_min (l : list X) (init : jsnum) :
  isCost init ->
  fold_left (fun m s => Math_min m (f s)) l init
  = fold_left (fun m s => if lt (f s) m then f s else m) l init.
Proof.
  revert init. induction l as [|s l IH]; intros init Hinit; simpl.
  - reflexivity.
  - rewrite Math_min_isCost by auto. apply IH.
    destruct (lt (f s) init); auto.
Qed.


End Starts.

(** The starting centres of the orchestrator are the three centre names. *)
Lemma centers_loc (x : loc) :
  In x centers <-> exists s : string, In s centers /\ x = Str s.
Proof.
  unfold centers. simpl. split.
  - intros [<-|[<-|[<-|[]]]]; eexists; (split; [|reflexivity]); tauto.
  - intros [s [[<-|[<-|[<-|[]]]] ->]]; tauto.
Qed.


Lemma fold_left_ext_in (A B : Type) (g h : A -> B -> A) (l : list B) (a : A) :
  (forall x y, In y l -> g x y = h x y) ->
  fold_left g l a = fold_left h l a.
Proof.
  revert a. induction l as [|y l IH]; intros a H; simpl; [reflexivity|].
  rewrite H by now left. apply IH. intros x z Hz. apply H. now right.
Qed.

Lemma IndexJs_COST_pos : (0 < IndexJs.COST_PER_KM)%Qc.
Proof. reflexivity. Qed.

Lemma Part000_COST_pos : (0 < Part000.COST_PER_UNIT)%Qc.
Proof. reflexivity. Qed.







(** ** The orchestrator outside the fixed answers *)


Lemma IndexJs_starts_isCost (order : object JS.value) (s : loc) :
  isCost (cost (IndexJs.findOptimalRoute s (centersNeededOf order))).
Proof.
  apply findOptimalRoute_isCost;
    [exact IndexJs_COST_pos | apply centersNeededOf_plain].
Qed.






(** ** The joined key and the names of [Object.prototype] *)




(** ** One more product of a centre already needed *)



Lemma stocks_catalog (center product : string) :
  stocks center product ->
  In product catalogProducts
  /\ obj_get product getProductCenterMap = Some center.
Proof.
  intros [products [Hin Hp]]. simpl in Hin.
  repeat (destruct Hin as [Hin|Hin];
          [inversion Hin; subst; simpl in Hp;
           repeat (destruct Hp as [<-|Hp];
                   [split; [simpl; tauto | reflexivity]|]);
           contradiction|]).
  contradiction.
Qed.

Lemma stocks_center (center product : string) :
  stocks center product ->
  truthyCenter (obj_read product getProductCenterMap) = Some (Str center).
Proof.
  intros [products [Hin Hp]]. simpl in Hin.
  repeat (destruct Hin as [Hin|Hin];
          [inversion Hin; subst; simpl in Hp;
           repeat (destruct Hp as [<-|Hp]; [reflexivity|]); contradiction|]).
  contradiction.
Qed.







(** ** An order served by C1 alone *)








(** ** The cost of a route over the network *)

Lemma locations_plain (x : string) : In x locations -> plainStop x.
Proof.
  unfold locations, centers. simpl.
  intros [<-|[<-|[<-|[<-|[]]]]]; reflexivity.
Qed.

Section NetworkRoutes.

Variable DISTANCES : object Qc.
Variable COST : Qc.

Lemma legCost_shift (x : string) (route : list string) (i : nat) :
  legCost DISTANCES COST (x :: route) (S i) = legCost DISTANCES COST route i.
Proof. reflexivity. Qed.

Lemma sumOfLegs_legs (route : list string) :
  map (legCost DISTANCES COST route) (seq 0 (List.length route - 1))
  = map (fun leg => mul (getDistance DISTANCES (fst leg) (snd leg))
                      (Num COST))
      (legs route).
Proof.
  destruct route as [|x rest]; [reflexivity|].
  replace (List.length (x :: rest) - 1) with (List.length rest)
    by (simpl; lia).
  revert x. induction rest as [|y rest IH]; intro x; [reflexivity|].
  change (legs (x :: y :: rest)) with ((x, y) :: legs (y :: rest)).
  change (List.length (y :: rest)) with (S (List.length rest)).
  cbn [seq map]. f_equal.
  rewrite <- seq_shift, map_map, <- IH.
  apply map_ext. intro i. apply legCost_shift.
Qed.

Hypothesis no_zero_entry :
  forall key d, obj_get key DISTANCES = Some d -> d <> Q2Qc 0.

(** Between two locations of the network, [getDistance] is the entry of
    the table, or [Infinity] when there is none. *)
Lemma getDistance_network (from to : string) :
  In to locations ->
  getDistance DISTANCES from to = Dist (tableDistance DISTANCES from to).
Proof.
  intro Hto. rewrite (getDistance_plain DISTANCES from to)
    by now apply locations_plain.
  unfold tableDistance. simpl.
  destruct (obj_get (tableKey from to) DISTANCES) as [d|] eqn:E;
    [|reflexivity].
  apply no_zero_entry in E. simpl.
  now destruct (Qc_eq_dec d (Q2Qc 0)).
Qed.

Lemma legs_In (route : list string) (from to : string) :
  In (from, to) (legs route) -> In from route /\ In to (tl route).
Proof.
  induction route as [|x [|y rest] IH]; try contradiction.
  cbn [legs]. intros [H|H].
  - inversion H; subst. split; now left.
  - apply IH in H. destruct H as [H1 H2]. split; right; auto.
Qed.

Lemma network_costs (route : list string) :
  Forall (fun stop => In stop locations) route ->
  map (fun leg => mul (getDistance DISTANCES (fst leg) (snd leg)) (Num COST))
    (legs route)
  = map (tableLegCost DISTANCES COST) (legs route).
Proof.
  intro Hloc. apply map_ext_in. intros [from to] Hleg.
  apply legs_In in Hleg. destruct Hleg as [_ Hto]. simpl.
  unfold tableLegCost. simpl. rewrite getDistance_network; [reflexivity|].
  rewrite Forall_forall in Hloc. apply Hloc.
  destruct route; [contradiction | now right].
Qed.

End NetworkRoutes.

(** C6. For every route over the locations of the network (C1, C2, C3 and
    the hub), on every distance table without a zero entry and for every
    positive unit cost, [calculateRouteCost] returns the sum, over the
    consecutive pairs of the route, of the distance the table gives for the
    pair times the unit cost; and when some consecutive pair has no entry
    in the table the result is [Infinity]: a missing entry never counts as
    a distance of zero. *)
Theorem calculateRouteCost_sum_of_legs
  (DISTANCES : object Qc) (COST : Qc) (route : list string) :
  (0 < COST)%Qc ->
  (forall key d, obj_get key DISTANCES = Some d -> d <> Q2Qc 0) ->
  Forall (fun stop => In stop locations) route ->
  calculateRouteCost DISTANCES COST route
  = total (map (tableLegCost DISTANCES COST) (legs route))
  /\ (forall from to,
        In (from, to) (legs route) ->
        obj_get (tableKey from to) DISTANCES = None ->
        calculateRouteCost DISTANCES COST route = PosInf).
Proof.
  intros Hpos Hzero Hloc.
  assert (E : calculateRouteCost DISTANCES COST route
              = total (map (tableLegCost DISTANCES COST) (legs route))).
  { rewrite calculateRouteCost_total. unfold sumOfLegs.
    now rewrite sumOfLegs_legs, (network_costs DISTANCES COST Hzero). }
  split; [exact E|]. intros from to Hleg Hnone. rewrite E.
  apply total_PosInf.
  - apply Forall_forall. intros c Hc. apply in_map_iff in Hc.
    destruct Hc as [[a b] [<- _]]. unfold tableLegCost, tableDistance. simpl.
    apply mul_isCost; [exact Hpos|].
    now destruct (obj_get (tableKey a b) DISTANCES).
  - apply in_map_iff. exists (from, to). split; [|exact Hleg].
    unfold tableLegCost, tableDistance. simpl. rewrite Hnone.
    now apply mul_PosInf_COST.
Qed.

(** ** A product named as a member of [Object.prototype] *)

(** C8, at the order [{"toString": 1}]. Its one valid product is not in
    the catalogue, yet reading the catalogue at [toString] finds the
    function of that name in [Object.prototype]: the set of centres needed
    is not empty, and [calculateMinDeliveryCost] returns that function,
    found again in the table of fixed answers, where the design gives 0. *)
Theorem toString_order_returns_function :
  (forall product,
     In product
       (Object_keys (filteredOrder [("toString"%string, VNumber (ofZ 1))])) ->
     ~ In product catalogProducts)
  /\ centersNeededOf [("toString"%string, VNumber (ofZ 1))]
     = [Proto "toString"]
  /\ IndexJs.calculateMinDeliveryCost [("toString"%string, VNumber (ofZ 1))]
     = AnsProto "toString"
  /\ Part000.calculateMinDeliveryCost [("toString"%string, VNumber (ofZ 1))]
     = AnsProto "toString"
  /\ ~ emptyOrderAsStated [("toString"%string, VNumber (ofZ 1))].
Proof.
  assert (H : forall product,
             In product
               (Object_keys
                  (filteredOrder [("toString"%string, VNumber (ofZ 1))])) ->
             ~ In product catalogProducts).
  { intros product [<-|[]]. simpl. intuition discriminate. }
  split; [exact H|]. split; [reflexivity|]. split; [reflexivity|].
  split; [reflexivity|].
  intro Hs. destruct Hs as [Hs _]; [right; exact H | discriminate Hs].
Qed.

(** ** The theorems at concrete inputs *)

Lemma IndexJs_no_zero_entry (key : string) (d : Qc) :
  obj_get key IndexJs.DISTANCES = Some d -> d <> Q2Qc 0.
Proof.
  intro H. apply obj_get_In in H. simpl in H.
  repeat (destruct H as [H|H]; [inversion H; subst; discriminate|]).
  contradiction.
Qed.

Lemma Part000_no_zero_entry (key : string) (d : Qc) :
  obj_get key Part000.DISTANCES = Some d -> d <> Q2Qc 0.
Proof.
  intro H. apply obj_get_In in H. simpl in H.
  repeat (destruct H as [H|H]; [inversion H; subst; discriminate|]).
  contradiction.
Qed.

Lemma findOptimalRoute_minimum_witness :
  ((0 < IndexJs.COST_PER_KM)%Qc
   /\ NoDup ["C1"; "C2"; "C3"]%string
   /\ incl ["C1"; "C2"; "C3"]%string centers
   /\ toVisit "C1" ["C1"; "C2"; "C3"]%string <> [])
  /\ isMinimumOf
       (cost (findOptimalRoute IndexJs.DISTANCES IndexJs.COST_PER_KM "C1"
                ["C1"; "C2"; "C3"]%string))
       (candidateCost IndexJs.DISTANCES IndexJs.COST_PER_KM "C1"
          (toVisit "C1" ["C1"; "C2"; "C3"]%string)).
Proof.
  assert (H : (0 < IndexJs.COST_PER_KM)%Qc
              /\ NoDup ["C1"; "C2"; "C3"]%string
              /\ incl ["C1"; "C2"; "C3"]%string centers
              /\ toVisit "C1" ["C1"; "C2"; "C3"]%string <> []).
  { split; [reflexivity|]. split; [|split].
    - repeat constructor; simpl; intuition discriminate.
    - apply incl_refl.
    - vm_compute. discriminate. }
  split; [exact H|].
  destruct H as [H1 [H2 [H3 H4]]].
  exact (findOptimalRoute_minimum IndexJs.DISTANCES IndexJs.COST_PER_KM
           "C1" ["C1"; "C2"; "C3"]%string H1 H2 H3 H4).
Defined.




Lemma findOptimalRoute_nothing_to_visit_witness :
  toVisit "C1" ["C1"%string] = []
  /\ findOptimalRoute IndexJs.DISTANCES IndexJs.COST_PER_KM "C1" ["C1"%string]
     = mkResult (Some ["C1"%string; HUB])
         (mul (getDistance IndexJs.DISTANCES "C1" HUB)
            (Num IndexJs.COST_PER_KM)).
Proof.
  split; [reflexivity|].
  apply (findOptimalRoute_nothing_to_visit IndexJs.DISTANCES
           IndexJs.COST_PER_KM "C1" ["C1"%string] eq_refl).
  now left.
Defined.

Lemma calculateRouteCost_sum_of_legs_witness :
  ((0 < IndexJs.COST_PER_KM)%Qc
   /\ (forall key d,
         obj_get key IndexJs.DISTANCES = Some d -> d <> Q2Qc 0)
   /\ Forall (fun stop => In stop locations) ["C1"; "C2"; "L1"]%string
   /\ Forall (fun stop => In stop locations) ["C1"; "C1"; "L1"]%string)
  /\ calculateRouteCost IndexJs.DISTANCES IndexJs.COST_PER_KM
       ["C1"; "C2"; "L1"]%string
     = total
         (map (tableLegCost IndexJs.DISTANCES IndexJs.COST_PER_KM)
            (legs ["C1"; "C2"; "L1"]%string))
  /\ calculateRouteCost IndexJs.DISTANCES IndexJs.COST_PER_KM
       ["C1"; "C1"; "L1"]%string
     = PosInf.
Proof.
  assert (H : (0 < IndexJs.COST_PER_KM)%Qc
              /\ (forall key d,
                    obj_get key IndexJs.DISTANCES = Some d -> d <> Q2Qc 0)
              /\ Forall (fun stop => In stop locations)
                   ["C1"; "C2"; "L1"]%string
              /\ Forall (fun stop => In stop locations)
                   ["C1"; "C1"; "L1"]%string).
  { split; [reflexivity|]. split; [exact IndexJs_no_zero_entry|].
    split; repeat constructor; simpl; tauto. }
  split; [exact H|]. destruct H as [H1 [H2 [H3 H4]]]. split.
  - exact (proj1 (calculateRouteCost_sum_of_legs IndexJs.DISTANCES
                    IndexJs.COST_PER_KM ["C1"; "C2"; "L1"]%string H1 H2 H3)).
  - apply (proj2 (calculateRouteCost_sum_of_legs IndexJs.DISTANCES
                    IndexJs.COST_PER_KM ["C1"; "C1"; "L1"]%string H1 H2 H4)
             "C1"%string "C1"%string).
    + now left.
    + reflexivity.
Defined.




(** * Further properties of the code *)

(** ** [getPermutations] *)

Section PermutationsMore.

Variable A : Type.

Lemma list_sum_constant (B : Type) (g : B -> nat) (c : nat) (l : list B) :
  (forall x, In x l -> g x = c) ->
  list_sum (map g l) = List.length l * c.
Proof.
  induction l as [|x l IH]; intro H; simpl; [reflexivity|].
  rewrite (H x) by now left. rewrite IH; [reflexivity|].
  intros y Hy. apply H. now right.
Qed.

Lemma getPermutationsFuel_count (fuel : nat) :
  forall arr : list A,
    List.length arr <= fuel ->
    List.length (getPermutationsFuel fuel arr) = fact (List.length arr).
Proof.
  induction fuel as [|fuel IH]; intros arr Hfuel.
  - rewrite getPermutationsFuel_short by lia.
    destruct arr; [reflexivity | simpl in Hfuel; lia].
  - destruct (Nat.le_gt_cases (List.length arr) 1) as [Hshort|Hlong].
    + rewrite getPermutationsFuel_short by exact Hshort.
      destruct arr as [|x [|y arr]]; simpl in *; try reflexivity; lia.
    + rewrite getPermutationsFuel_long by exact Hlong.
      rewrite length_flat_map.
      rewrite list_sum_constant with (c := fact (List.length arr - 1)).
      * rewrite length_seq. destruct (List.length arr) as [|n]; [lia|].
        simpl. rewrite Nat.sub_0_r. reflexivity.
      * intros i Hi. apply in_seq in Hi.
        destruct (nth_error arr i) as [current|] eqn:Hnth.
        { pose proof (removeAt_length _ _ _ _ Hnth) as Hlen.
          rewrite length_map, IH by lia. f_equal. lia. }
        { apply nth_error_None in Hnth. lia. }
Qed.

Lemma removeAt_NoDup (arr : list A) (i : nat) (x : A) :
  NoDup arr -> nth_error arr i = Some x ->
  NoDup (removeAt i arr) /\ ~ In x (removeAt i arr).
Proof.
  intros Hnd Hnth.
  pose proof (removeAt_Permutation _ _ _ _ Hnth) as Hp.
  apply (Permutation_NoDup Hp) in Hnd.
  inversion Hnd; subst. tauto.
Qed.

Lemma NoDup_flat_map (B C : Type) (f : B -> list C) (l : list B) :
  NoDup l ->
  (forall x, In x l -> NoDup (f x)) ->
  (forall x y c, In x l -> In y l -> x <> y -> In c (f x) -> ~ In c (f y)) ->
  NoDup (flat_map f l).
Proof.
  induction 1 as [|x l Hx Hnd IH]; intros Hblock Hdisj; simpl.
  - constructor.
  - apply NoDup_app.
    + apply Hblock. now left.
    + apply IH.
      * intros y Hy. apply Hblock. now right.
      * intros y z c Hy Hz. apply Hdisj; now right.
    + intros c Hc Hin. apply in_flat_map in Hin.
      destruct Hin as [y [Hy Hcy]].
      apply (Hdisj x y c); auto.
      * now left.
      * now right.
      * intro E. subst. contradiction.
Qed.

Lemma NoDup_map_cons (x : A) (l : list (list A)) :
  NoDup l -> NoDup (map (cons x) l).
Proof.
  induction 1 as [|p l Hp Hnd IH]; simpl; constructor; [|exact IH].
  intro Hin. apply in_map_iff in Hin. destruct Hin as [q [E Hq]].
  inversion E; subst. contradiction.
Qed.

Lemma getPermutationsFuel_NoDup (fuel : nat) :
  forall arr : list A,
    List.length arr <= fuel -> NoDup arr ->
    NoDup (getPermutationsFuel fuel arr).
Proof.
  induction fuel as [|fuel IH]; intros arr Hfuel Hnd.
  - rewrite getPermutationsFuel_short by lia. repeat constructor. tauto.
  - destruct (Nat.le_gt_cases (List.length arr) 1) as [Hshort|Hlong].
    + rewrite getPermutationsFuel_short by exact Hshort.
      repeat constructor. tauto.
    + rewrite getPermutationsFuel_long by exact Hlong.
      apply NoDup_flat_map.
      * apply seq_NoDup.
      * intros i Hi.
        destruct (nth_error arr i) as [current|] eqn:Hnth; [|constructor].
        apply NoDup_map_cons. apply IH.
        { pose proof (removeAt_length _ _ _ _ Hnth). lia. }
        { now apply (removeAt_NoDup arr i current). }
      * intros i j p Hi Hj Hij Hp Hq.
        destruct (nth_error arr i) as [ci|] eqn:Hnthi; [|contradiction].
        destruct (nth_error arr j) as [cj|] eqn:Hnthj; [|contradiction].
        apply in_map_iff in Hp. destruct Hp as [p' [<- _]].
        apply in_map_iff in Hq. destruct Hq as [q' [E _]].
        inversion E; subst. apply Hij.
        apply in_seq in Hi.
        apply (proj1 (NoDup_nth_error arr) Hnd i j); [lia | congruence].
Qed.

End PermutationsMore.

(** X1. [getPermutations] returns the orderings of its argument, all of them
    and nothing else: a list is in the result exactly when it is a
    permutation of the argument. *)
Theorem getPermutations_all_orderings (A : Type) (arr p : list A) :
  In p (getPermutations arr) <-> Permutation arr p.
Proof.
  unfold getPermutations. apply getPermutationsFuel_spec. lia.
Qed.

(** X2. [getPermutations] returns [n!] arrays for an array of [n] elements
    (one for the empty array). *)
Theorem getPermutations_count (A : Type) (arr : list A) :
  List.length (getPermutations arr) = fact (List.length arr).
Proof.
  unfold getPermutations. apply getPermutationsFuel_count. lia.
Qed.

(** X3. On an array without repeated elements, [getPermutations] returns no
    ordering twice. *)
Theorem getPermutations_no_repeat (A : Type) (arr : list A) :
  NoDup arr -> NoDup (getPermutations arr).
Proof.
  intro H. unfold getPermutations. apply getPermutationsFuel_NoDup; [lia|exact H].
Qed.

Lemma getPermutations_no_repeat_witness :
  NoDup ["C1"; "C2"; "C3"]%string
  /\ NoDup (getPermutations ["C1"; "C2"; "C3"]%string).
Proof.
  assert (H : NoDup ["C1"; "C2"; "C3"]%string).
  { repeat constructor; simpl; intuition discriminate. }
  split; [exact H|].
  exact (getPermutations_no_repeat string _ H).
Defined.


(** ** Candidate routes *)

Section CandidateShape.

Context {L : Type} {LL : Location L}.

Lemma pushCenters_stops (mask : Z) (perm : list L) :
  forall (i : nat) (route : list L),
  exists stops,
    pushCenters mask i perm route = route ++ stops
    /\ filter (fun x => negb (strictEq x (fromString HUB))) stops
       = filter (fun x => negb (strictEq x (fromString HUB))) perm
    /\ forall c, In c perm -> In c stops.
Proof.
  induction perm as [|center rest IH]; intros i route.
  - exists []. simpl. now rewrite app_nil_r.
  - cbn [pushCenters].
    destruct (Z.eqb (band (sar mask (Z.of_nat i)) 1) 0).
    + destruct (IH (i + 1) (route ++ [center])) as [stops [E [F Hin]]].
      exists (center :: stops). rewrite E, <- app_assoc. split; [reflexivity|].
      split.
      * simpl. now rewrite F.
      * intros c [<-|Hc]; [now left | right; auto].
    + destruct (IH (i + 1) ((route ++ [fromString HUB]) ++ [center]))
        as [stops [E [F Hin]]].
      exists (fromString HUB :: center :: stops). rewrite E, <- !app_assoc.
      split; [reflexivity|]. split.
      * cbn [filter]. rewrite strictEq_refl. cbn [negb].
        fold (filter (fun x => negb (strictEq x (fromString HUB))) stops).
        now rewrite F.
      * intros c [<-|Hc]; [right; now left | right; right; auto].
Qed.

Lemma buildRoute_stops (startCenter : L) (perm : list L) (mask : Z) :
  hd_error (buildRoute startCenter perm mask) = Some startCenter
  /\ last (buildRoute startCenter perm mask) (fromString EmptyString)
     = fromString HUB
  /\ filter (fun x => negb (strictEq x (fromString HUB)))
       (buildRoute startCenter perm mask)
     = filter (fun x => negb (strictEq x (fromString HUB)))
         (startCenter :: perm)
  /\ forall c, In c perm -> In c (buildRoute startCenter perm mask).
Proof.
  unfold buildRoute.
  destruct (pushCenters_stops mask perm 0 [startCenter]) as [stops [E [F Hin]]].
  rewrite E.
  destruct (strictEq (last ([startCenter] ++ stops) (fromString EmptyString))
              (fromString HUB)) eqn:Hl.
  - apply strictEq_eq in Hl. repeat split; auto.
    + change ([startCenter] ++ stops) with (startCenter :: stops).
      cbn [filter]. now rewrite F.
    + intros c Hc. right. auto.
  - repeat split.
    + apply last_last.
    + rewrite filter_app.
      change ([startCenter] ++ stops) with (startCenter :: stops).
      cbn [filter]. rewrite F, strictEq_refl. cbn [negb].
      now rewrite app_nil_r.
    + intros c Hc. apply in_or_app. left. right. auto.
Qed.

End CandidateShape.

(** X4. Every candidate that [findOptimalRoute] builds, for any permutation
    and any mask, starts at the start and ends at the hub, and with its
    stops at the hub taken out it is the start followed by the centres of
    the permutation, in their order. *)
Theorem buildRoute_shape (startCenter : string) (perm : list string)
  (mask : Z) :
  hd_error (buildRoute startCenter perm mask) = Some startCenter
  /\ last (buildRoute startCenter perm mask) EmptyString = HUB
  /\ filter notHub (buildRoute startCenter perm mask)
     = filter notHub (startCenter :: perm).
Proof.
  destruct (buildRoute_stops startCenter perm mask) as [H1 [H2 [H3 _]]].
  split; [exact H1|]. split; [exact H2 | exact H3].
Qed.

(** ** The route returned by the search *)

Lemma fold_left_invariant (A B : Type) (P : A -> Prop) (f : A -> B -> A)
  (l : list B) :
  (forall a x, In x l -> P a -> P (f a x)) ->
  forall a, P a -> P (fold_left f l a).
Proof.
  induction l as [|x l IH]; intros Hstep a Ha; simpl; [exact Ha|].
  apply IH.
  - intros a' y Hy. apply Hstep. now right.
  - apply Hstep; [now left | exact Ha].
Qed.

Lemma lt_not_PosInf (a b : jsnum) : lt a b = true -> a <> PosInf.
Proof. destruct a, b; simpl; congruence. Qed.

Lemma filter_idempotent (A : Type) (f : A -> bool) (l : list A) :
  filter f (filter f l) = filter f l.
Proof.
  induction l as [|x l IH]; simpl; [reflexivity|].
  destruct (f x) eqn:E; simpl; [rewrite E; f_equal|]; exact IH.
Qed.

Lemma findOptimalRoute_searchResult {L : Type} {LL : Location L}
  (DISTANCES : object Qc) (COST : Qc)
  (startCenter : L) (centersNeeded : list L) :
  toVisit startCenter centersNeeded <> [] ->
  searchResult DISTANCES COST startCenter (toVisit startCenter centersNeeded)
    (findOptimalRoute DISTANCES COST startCenter centersNeeded).
Proof.
  intro Hne. unfold findOptimalRoute.
  fold (toVisit startCenter centersNeeded).
  destruct (List.length (toVisit startCenter centersNeeded) =? 0) eqn:E.
  { apply Nat.eqb_eq in E.
    destruct (toVisit startCenter centersNeeded); [congruence|discriminate]. }
  apply fold_left_invariant; [|reflexivity].
  intros best perm Hperm Hbest.
  apply fold_left_invariant; [|exact Hbest].
  intros best' mask _ Hbest'. unfold keepBest.
  destruct (lt _ (cost best')) eqn:Hlt; [|exact Hbest'].
  apply lt_not_PosInf in Hlt.
  destruct (buildRoute_stops startCenter perm mask) as [H1 [H2 [_ H4]]].
  unfold searchResult. simpl. repeat split; auto.
  intros c Hc. apply H4.
  apply getPermutations_spec in Hperm.
  now apply Permutation_in with (l := toVisit startCenter centersNeeded).
Qed.

(** X5. When something is left to visit, [findOptimalRoute] returns either
    no route ([null]) with cost [Infinity], or a route whose cost, as
    [calculateRouteCost] computes it, is the finite cost returned, which
    starts at the start, ends at the hub and passes through every centre to
    visit. *)
Theorem findOptimalRoute_route (DISTANCES : object Qc) (COST : Qc)
  (startCenter : string) (centersNeeded : list string) :
  toVisit startCenter centersNeeded <> [] ->
  searchResult DISTANCES COST startCenter (toVisit startCenter centersNeeded)
    (findOptimalRoute DISTANCES COST startCenter centersNeeded).
Proof. apply findOptimalRoute_searchResult. Qed.

Lemma findOptimalRoute_route_witness :
  toVisit "C1" ["C1"; "C3"]%string <> []
  /\ searchResult IndexJs.DISTANCES IndexJs.COST_PER_KM "C1"
       (toVisit "C1" ["C1"; "C3"]%string)
       (findOptimalRoute IndexJs.DISTANCES IndexJs.COST_PER_KM "C1"
          ["C1"; "C3"]%string).
Proof.
  assert (H : toVisit "C1" ["C1"; "C3"]%string <> []) by discriminate.
  split; [exact H|].
  exact (findOptimalRoute_route IndexJs.DISTANCES IndexJs.COST_PER_KM
           "C1" ["C1"; "C3"]%string H).
Defined.

(** X6. As soon as another centre is to be visited, it makes no difference
    to [findOptimalRoute] whether the start itself is among the centres
    needed: the result is the one for the centres needed without the
    start. *)
Theorem findOptimalRoute_start_membership (DISTANCES : object Qc) (COST : Qc)
  (startCenter : string) (centersNeeded : list string) :
  toVisit startCenter centersNeeded <> [] ->
  findOptimalRoute DISTANCES COST startCenter centersNeeded
  = findOptimalRoute DISTANCES COST startCenter
      (toVisit startCenter centersNeeded).
Proof.
  intro Hne. unfold findOptimalRoute, toVisit in *.
  rewrite filter_idempotent.
  destruct (List.length _ =? 0) eqn:E; [|reflexivity].
  apply Nat.eqb_eq in E.
  destruct (filter _ centersNeeded); [congruence | discriminate].
Qed.

Lemma findOptimalRoute_start_membership_witness :
  toVisit "C1" ["C1"; "C2"]%string <> []
  /\ findOptimalRoute IndexJs.DISTANCES IndexJs.COST_PER_KM "C1"
       ["C1"; "C2"]%string
     = findOptimalRoute IndexJs.DISTANCES IndexJs.COST_PER_KM "C1"
         (toVisit "C1" ["C1"; "C2"]%string).
Proof.
  assert (H : toVisit "C1" ["C1"; "C2"]%string <> []) by discriminate.
  split; [exact H|].
  exact (findOptimalRoute_start_membership IndexJs.DISTANCES
           IndexJs.COST_PER_KM "C1" ["C1"; "C2"]%string H).
Defined.

(** X7. The cost found by [findOptimalRoute] does not depend on the order
    in which the set of centres needed lists its centres. *)
Theorem findOptimalRoute_cost_listing_order (DISTANCES : object Qc)
  (COST : Qc) (startCenter : string) (n1 n2 : list string) :
  (0 < COST)%Qc ->
  NoDup n1 -> incl n1 centers -> Permutation n1 n2 ->
  cost (findOptimalRoute DISTANCES COST startCenter n1)
  = cost (findOptimalRoute DISTANCES COST startCenter n2).
Proof.
  intros Hpos Hnd Hincl Hp. apply findOptimalRoute_cost_ext; auto.
  - now apply centers_plain.
  - now apply (Permutation_NoDup Hp).
  - intro x. split; apply Permutation_in; [exact Hp | now symmetry].
  - pose proof (toVisit_centers_length startCenter n1 Hnd Hincl). lia.
Qed.

Lemma findOptimalRoute_cost_listing_order_witness :
  ((0 < IndexJs.COST_PER_KM)%Qc
   /\ NoDup ["C2"; "C3"]%string
   /\ incl ["C2"; "C3"]%string centers
   /\ Permutation ["C2"; "C3"]%string ["C3"; "C2"]%string)
  /\ cost (findOptimalRoute IndexJs.DISTANCES IndexJs.COST_PER_KM "C1"
             ["C2"; "C3"]%string)
     = cost (findOptimalRoute IndexJs.DISTANCES IndexJs.COST_PER_KM "C1"
               ["C3"; "C2"]%string).
Proof.
  assert (H : (0 < IndexJs.COST_PER_KM)%Qc
              /\ NoDup ["C2"; "C3"]%string
              /\ incl ["C2"; "C3"]%string centers
              /\ Permutation ["C2"; "C3"]%string ["C3"; "C2"]%string).
  { split; [reflexivity|]. split; [|split].
    - repeat constructor; simpl; intuition discriminate.
    - intros x Hx. simpl in Hx. unfold centers. simpl. tauto.
    - apply perm_swap. }
  split; [exact H|].
  destruct H as [H1 [H2 [H3 H4]]].
  exact (findOptimalRoute_cost_listing_order IndexJs.DISTANCES
           IndexJs.COST_PER_KM "C1" _ _ H1 H2 H3 H4).
Defined.

(** ** More on the cost evaluator *)

Lemma add_comm (a b : jsnum) : add a b = add b a.
Proof.
  destruct a, b; simpl; auto. f_equal. apply Qcplus_comm.
Qed.

Lemma total_app (l1 l2 : list jsnum) :
  total (l1 ++ l2) = add (total l1) (total l2).
Proof.
  induction l1 as [|x l1 IH].
  - symmetry. apply add_zero_l.
  - cbn [app total]. now rewrite IH, add_assoc.
Qed.

Lemma seq_add_map (a b : nat) : seq a b = map (fun j => a + j) (seq 0 b).
Proof.
  revert a. induction b as [|b IH]; intro a; simpl; [reflexivity|].
  rewrite Nat.add_0_r. f_equal. rewrite (IH (S a)), <- seq_shift, map_map.
  apply map_ext. intro j. lia.
Qed.

Lemma nth_shared_prefix (A : Type) (r1 r2 : list A) (x d : A) (i : nat) :
  i <= List.length r1 ->
  nth i (r1 ++ x :: r2) d = nth i (r1 ++ [x]) d.
Proof.
  intro Hi. destruct (Nat.eq_dec i (List.length r1)) as [->|Hne].
  - rewrite !app_nth2, Nat.sub_diag by lia. reflexivity.
  - rewrite !app_nth1 by lia. reflexivity.
Qed.

Lemma nth_shared_suffix (A : Type) (r1 r2 : list A) (x d : A) (j : nat) :
  nth (List.length r1 + j) (r1 ++ x :: r2) d = nth j (x :: r2) d.
Proof.
  rewrite app_nth2 by lia. f_equal. lia.
Qed.

Section RouteCostMore.

Context {L : Type} {LL : Location L}.
Variable DISTANCES : object Qc.
Variable COST : Qc.

Lemma calculateRouteCost_split (r1 r2 : list L) (x : L) :
  calculateRouteCost DISTANCES COST (r1 ++ x :: r2)
  = add (calculateRouteCost DISTANCES COST (r1 ++ [x]))
      (calculateRouteCost DISTANCES COST (x :: r2)).
Proof.
  rewrite !calculateRouteCost_total. unfold sumOfLegs.
  replace (List.length (r1 ++ x :: r2) - 1)
    with (List.length r1 + List.length r2)
    by (rewrite length_app; simpl; lia).
  replace (List.length (r1 ++ [x]) - 1) with (List.length r1)
    by (rewrite length_app; simpl; lia).
  replace (List.length (x :: r2) - 1) with (List.length r2)
    by (simpl; lia).
  rewrite seq_app, map_app, total_app. f_equal; f_equal.
  - apply map_ext_in. intros i Hi. apply in_seq in Hi. unfold legCost.
    rewrite (nth_shared_prefix L r1 r2 x _ i) by lia.
    rewrite (nth_shared_prefix L r1 r2 x _ (i + 1)) by lia. reflexivity.
  - simpl (0 + _). rewrite seq_add_map, map_map.
    apply map_ext. intro j. unfold legCost.
    rewrite <- Nat.add_assoc.
    rewrite (nth_shared_suffix L r1 r2 x _ j).
    rewrite (nth_shared_suffix L r1 r2 x _ (j + 1)). reflexivity.
Qed.

Lemma calculateRouteCost_pair (x y : L) :
  calculateRouteCost DISTANCES COST [x; y]
  = mul (getDistance DISTANCES x y) (Num COST).
Proof.
  unfold calculateRouteCost. simpl. apply add_zero_l.
Qed.

Variable P : L -> Prop.
Hypothesis symmetric :
  forall a b, P a -> P b ->
    getDistance DISTANCES a b = getDistance DISTANCES b a.

Lemma calculateRouteCost_rev (route : list L) :
  Forall P route ->
  calculateRouteCost DISTANCES COST (rev route)
  = calculateRouteCost DISTANCES COST route.
Proof.
  induction route as [|y rest IH]; intro HP; [reflexivity|].
  destruct rest as [|x rest]; [reflexivity|].
  inversion HP as [|? ? Hy HP']; subst.
  inversion HP' as [|? ? Hx _]; subst.
  transitivity (add (calculateRouteCost DISTANCES COST [y; x])
                  (calculateRouteCost DISTANCES COST (x :: rest))).
  - replace (rev (y :: x :: rest)) with (rev rest ++ x :: [y])
      by (simpl; now rewrite <- app_assoc).
    rewrite (calculateRouteCost_split (rev rest) [y] x).
    change (rev rest ++ [x]) with (rev (x :: rest)). rewrite (IH HP').
    rewrite !calculateRouteCost_pair, (symmetric x y Hx Hy). apply add_comm.
  - symmetry. exact (calculateRouteCost_split [y] rest x).
Qed.

End RouteCostMore.

(** X8. The cost of a route is the cost up to any of its stops plus the
    cost from that stop on. *)
Theorem calculateRouteCost_additive (DISTANCES : object Qc) (COST : Qc)
  (r1 r2 : list string) (x : string) :
  calculateRouteCost DISTANCES COST (r1 ++ x :: r2)
  = add (calculateRouteCost DISTANCES COST (r1 ++ [x]))
      (calculateRouteCost DISTANCES COST (x :: r2)).
Proof. apply calculateRouteCost_split. Qed.

(** X9. What [getDistance] returns, for any two strings: the entry of the
    table for the pair unless it is 0; [Infinity] for an entry of 0, and for
    a missing entry when the key names no member of [Object.prototype];
    and, for a missing entry whose key names such a member, that member,
    which the multiplication by the unit cost turns into NaN.  It never
    returns 0. *)
Theorem getDistance_entry_or_Infinity (DISTANCES : object Qc)
  (from to : string) :
  (forall d,
     obj_get (tableKey from to) DISTANCES = Some d -> d <> Q2Qc 0 ->
     getDistance DISTANCES from to = Dist (Num d))
  /\ (obj_get (tableKey from to) DISTANCES = Some (Q2Qc 0) ->
      getDistance DISTANCES from to = Dist PosInf)
  /\ (obj_get (tableKey from to) DISTANCES = None ->
      ~ In (tableKey from to) ObjectPrototype ->
      getDistance DISTANCES from to = Dist PosInf)
  /\ (obj_get (tableKey from to) DISTANCES = None ->
      In (tableKey from to) ObjectPrototype ->
      getDistance DISTANCES from to = DistProto (tableKey from to)
      /\ ToNumber (getDistance DISTANCES from to) = NaN)
  /\ getDistance DISTANCES from to <> Dist zero.
Proof.
  unfold getDistance, obj_read, truthy. simpl toText.
  fold (tableKey from to).
  destruct (obj_get (tableKey from to) DISTANCES) as [d|].
  - destruct (Qc_eq_dec d (Q2Qc 0)) as [E|E];
      (split; [|split; [|split; [|split]]]);
      try (intro H0; discriminate H0).
    + intros d' H0 Hd. inversion H0. congruence.
    + reflexivity.
    + intros d' H0 _. now inversion H0.
    + intro H0. inversion H0. contradiction.
    + unfold zero. congruence.
  - destruct (inherited (tableKey from to)) eqn:E;
      (split; [|split; [|split; [|split]]]);
      try (intro H0; discriminate H0); try (intros d' H0; discriminate H0).
    + intros _ H0. apply inherited_In in E. contradiction.
    + intros _ _. split; reflexivity.
    + reflexivity.
    + intros _ H0. apply inherited_In in H0. congruence.
Qed.

(** ** The two distance tables *)

Lemma append_splits (a s : string) : In (a, s) (splits (String.append a s)).
Proof.
  induction a as [|c a IH]; simpl.
  - destruct s; now left.
  - right. apply in_map_iff. now exists (a, s).
Qed.

Lemma table_keys_same :
  Object_keys Part000.DISTANCES = Object_keys IndexJs.DISTANCES.
Proof. reflexivity. Qed.

Lemma table_key_locations (a b : string) :
  In (tableKey a b) (Object_keys IndexJs.DISTANCES) ->
  In a locations /\ In b locations /\ a <> b.
Proof.
  intro H. pose proof (append_splits a (String "_" b)) as S.
  unfold tableKey in H. simpl in H.
  repeat (destruct H as [H|H];
          [rewrite <- H in S; simpl in S;
           repeat (destruct S as [S|S];
                   [inversion S; subst;
                    repeat split; simpl; try tauto; discriminate|]);
           contradiction|]).
  contradiction.
Qed.

Lemma getDistance_finite_key (DISTANCES : object Qc) (a b : string) (q : Qc) :
  getDistance DISTANCES a b = Dist (Num q) ->
  In (tableKey a b) (Object_keys DISTANCES).
Proof.
  intro H. destruct (in_dec string_dec (tableKey a b) (Object_keys DISTANCES))
    as [Hin|Hout]; [exact Hin|].
  apply obj_get_None in Hout. unfold getDistance, obj_read in H.
  simpl toText in H. fold (tableKey a b) in H. rewrite Hout in H.
  destruct (inherited (tableKey a b)); discriminate.
Qed.

Lemma locations_symmetric (a b : string) :
  In a locations -> In b locations ->
  getDistance IndexJs.DISTANCES a b = getDistance IndexJs.DISTANCES b a
  /\ getDistance Part000.DISTANCES a b = getDistance Part000.DISTANCES b a.
Proof.
  unfold locations, centers. simpl.
  intros [<-|[<-|[<-|[<-|[]]]]] [<-|[<-|[<-|[<-|[]]]]];
    split; reflexivity.
Qed.

(** X10. With the table of either file, [getDistance] returns a finite
    number exactly for two different locations among C1, C2, C3 and L1: a
    location to itself, and any pair with another name in it, give
    [Infinity] or a member of [Object.prototype]. *)
Theorem getDistance_finite_iff (from to : string) :
  ((exists q, getDistance IndexJs.DISTANCES from to = Dist (Num q))
   <-> In from locations /\ In to locations /\ from <> to)
  /\ ((exists q, getDistance Part000.DISTANCES from to = Dist (Num q))
      <-> In from locations /\ In to locations /\ from <> to).
Proof.
  assert (Hfin : forall a b,
             In a locations -> In b locations -> a <> b ->
             (exists q, getDistance IndexJs.DISTANCES a b = Dist (Num q))
             /\ (exists q, getDistance Part000.DISTANCES a b = Dist (Num q))).
  { unfold locations, centers. simpl.
    intros a b [<-|[<-|[<-|[<-|[]]]]] [<-|[<-|[<-|[<-|[]]]]] Hne;
      try congruence; split; eexists; reflexivity. }
  split; split.
  - intros [q H]. apply getDistance_finite_key in H.
    now apply table_key_locations.
  - intros [Ha [Hb Hne]]. now apply Hfin.
  - intros [q H]. apply getDistance_finite_key in H.
    apply table_key_locations. now rewrite <- table_keys_same.
  - intros [Ha [Hb Hne]]. now apply Hfin.
Qed.

(** X11. With the table of either file, the distance between two locations
    of the network is the same in both directions, and a route over the
    network costs what the same route costs when it is travelled
    backwards. *)
Theorem calculateRouteCost_reversed (from to : string) (route : list string) :
  In from locations -> In to locations ->
  Forall (fun stop => In stop locations) route ->
  (getDistance IndexJs.DISTANCES from to
   = getDistance IndexJs.DISTANCES to from
   /\ calculateRouteCost IndexJs.DISTANCES IndexJs.COST_PER_KM (rev route)
      = calculateRouteCost IndexJs.DISTANCES IndexJs.COST_PER_KM route)
  /\ (getDistance Part000.DISTANCES from to
      = getDistance Part000.DISTANCES to from
      /\ calculateRouteCost Part000.DISTANCES Part000.COST_PER_UNIT (rev route)
         = calculateRouteCost Part000.DISTANCES Part000.COST_PER_UNIT route).
Proof.
  intros Hfrom Hto Hroute. split; split.
  - now apply locations_symmetric.
  - apply (calculateRouteCost_rev IndexJs.DISTANCES IndexJs.COST_PER_KM
             (fun stop => In stop locations)); [|exact Hroute].
    intros a b Ha Hb. now apply locations_symmetric.
  - now apply locations_symmetric.
  - apply (calculateRouteCost_rev Part000.DISTANCES Part000.COST_PER_UNIT
             (fun stop => In stop locations)); [|exact Hroute].
    intros a b Ha Hb. now apply locations_symmetric.
Qed.

Lemma calculateRouteCost_reversed_witness :
  (In "C1"%string locations /\ In "C3"%string locations
   /\ Forall (fun stop => In stop locations) ["C1"; "C3"; "C2"; "L1"]%string)
  /\ calculateRouteCost IndexJs.DISTANCES IndexJs.COST_PER_KM
       (rev ["C1"; "C3"; "C2"; "L1"]%string)
     = calculateRouteCost IndexJs.DISTANCES IndexJs.COST_PER_KM
         ["C1"; "C3"; "C2"; "L1"]%string.
Proof.
  assert (H : In "C1"%string locations /\ In "C3"%string locations
              /\ Forall (fun stop => In stop locations)
                   ["C1"; "C3"; "C2"; "L1"]%string).
  { unfold locations, centers. simpl. split; [tauto|]. split; [tauto|].
    repeat constructor; simpl; tauto. }
  split; [exact H|]. destruct H as [H1 [H2 H3]].
  exact (proj2 (proj1 (calculateRouteCost_reversed "C1" "C3" _ H1 H2 H3))).
Defined.

(** ** The catalogue and the centres needed *)

Lemma center_stocks (center product : string) :
  obj_get product getProductCenterMap = Some center -> stocks center product.
Proof.
  intro H. apply obj_get_In in H. simpl in H.
  repeat (destruct H as [H|H];
          [inversion H; subst;
           first [ exists ["A"; "B"; "C"]%string; split; simpl; tauto
                 | exists ["D"; "E"; "F"]%string; split; simpl; tauto
                 | exists ["G"; "H"; "I"]%string; split; simpl; tauto ]|]).
  contradiction.
Qed.

(** X12. [getProductCenterMap] maps a product to a centre exactly when the
    centre stocks the product in [CENTER_PRODUCTS]; no product has two
    centres. *)
Theorem getProductCenterMap_stocks (product center : string) :
  (obj_get product getProductCenterMap = Some center
   <-> stocks center product)
  /\ (forall other, stocks center product -> stocks other product ->
       other = center).
Proof.
  assert (H : forall c, stocks c product ->
                obj_get product getProductCenterMap = Some c).
  { intros c Hc. now apply stocks_catalog in Hc. }
  split.
  - split; [apply center_stocks | apply H].
  - intros other H1 H2. apply H in H1, H2. congruence.
Qed.


(** ** More on the order normaliser *)

Lemma filter_all (A : Type) (f : A -> bool) (l : list A) :
  (forall x, In x l -> f x = true) -> filter f l = l.
Proof.
  induction l as [|x l IH]; intro H; simpl; [reflexivity|].
  rewrite (H x) by now left. f_equal. apply IH.
  intros y Hy. apply H. now right.
Qed.

(** X14. Normalising twice is normalising once: the cleaning loop run on
    its own output (the kept entries, as numbers) returns that output. *)
Theorem filteredOrder_idempotent (order : object JS.value) :
  filteredOrder
    (map (fun e => (fst e, VNumber (snd e))) (filteredOrder order))
  = filteredOrder order.
Proof.
  rewrite filteredOrder_filter.
  - rewrite filter_all.
    + rewrite map_map. simpl. rewrite <- (map_id (filteredOrder order)) at 2.
      apply map_ext. now intros [k q].
    + intros e He. apply in_map_iff in He. destruct He as [[k q] [<- Hq]].
      apply kept_iff. simpl. split.
      * unfold validEntry. simpl.
        now apply filteredOrder_positive in Hq.
      * intros ->. apply (filteredOrder_no_proto order).
        apply in_map_iff. now exists ("__proto__"%string, q).
  - unfold Object_keys. rewrite map_map. simpl.
    apply filteredOrder_keys_NoDup.
Qed.




(** X16. In the second entry point the two lookups by the text of the
    order never change the answer: with both taken out the function returns
    the same value for every order, whatever optimiser it calls. *)
Theorem text_lookups_redundant
  (optimiser : loc -> list loc -> RouteResult loc)
  (order : object JS.value) :
  Part000.calculateMinDeliveryCostWith optimiser order
  = withoutTextLookups optimiser order.
Proof. apply Part000_cases. Qed.

(** ** The answers of the two entry points, by the centres needed *)

Lemma canonical_centers {L : Type} {LL : Location L} (cn : list L) :
  NoDup cn -> incl cn centers ->
  NoDup (filter (fun c => Set_has c cn) centers)
  /\ forall x, In x cn <-> In x (filter (fun c => Set_has c cn) centers).
Proof.
  intros Hnd Hincl. split.
  - apply NoDup_filter, centers_NoDup.
  - intro x. rewrite filter_In, Set_has_In. split; [|tauto].
    intro Hx. split; [now apply Hincl | exact Hx].
Qed.

Lemma cost_of_canonical_centers {L : Type} {LL : Location L}
  (DISTANCES : object Qc) (COST : Qc) (startCenter : L) (cn : list L) :
  (0 < COST)%Qc -> NoDup cn -> incl cn centers ->
  cost (findOptimalRoute DISTANCES COST startCenter cn)
  = cost (findOptimalRoute DISTANCES COST startCenter
            (filter (fun c => Set_has c cn) centers)).
Proof.
  intros Hpos Hnd Hincl.
  destruct (canonical_centers cn Hnd Hincl) as [Hnd' Hsame].
  apply findOptimalRoute_cost_ext; auto.
  - now apply centers_plain.
  - pose proof (toVisit_centers_length startCenter cn Hnd Hincl). lia.
Qed.

Lemma some_center_needed {L : Type} {LL : Location L} (cn : list L) :
  cn <> [] -> incl cn centers ->
  Set_has (fromString "C1") cn || Set_has (fromString "C2") cn
  || Set_has (fromString "C3") cn = true.
Proof.
  intros Hne Hincl. destruct cn as [|c cn]; [congruence|].
  assert (Hc : In c centers) by (apply Hincl; now left).
  unfold centers in Hc. simpl in Hc.
  destruct Hc as [<-|[<-|[<-|[]]]]; simpl;
    rewrite strictEq_refl; rewrite ?orb_true_r; reflexivity.
Qed.



Lemma IndexJs_starts_by_centers (cn : list loc) :
  NoDup cn -> incl cn centers -> cn <> [] ->
  fold_left
    (fun m s =>
       if lt (cost (IndexJs.findOptimalRoute s cn)) m
       then cost (IndexJs.findOptimalRoute s cn) else m)
    centers PosInf
  = ofZ (indexCostOf (Set_has (Str "C1") cn) (Set_has (Str "C2") cn)
           (Set_has (Str "C3") cn)).
Proof.
  intros Hnd Hincl Hne.
  pose proof (some_center_needed _ Hne Hincl) as Hsome.
  rewrite fold_left_ext_in
    with (h := fun m s =>
                 if lt (cost (IndexJs.findOptimalRoute s
                                (filter (fun c => Set_has c cn) centers))) m
                 then cost (IndexJs.findOptimalRoute s
                              (filter (fun c => Set_has c cn) centers))
                 else m).
  2: { intros m s _. unfold IndexJs.findOptimalRoute.
       now rewrite (cost_of_canonical_centers IndexJs.DISTANCES
                      IndexJs.COST_PER_KM s _ IndexJs_COST_pos Hnd Hincl). }
  change (@centers loc loc_Location) with [Str "C1"; Str "C2"; Str "C3"].
  change (@fromString loc loc_Location) with Str in Hsome.
  cbn [filter].
  destruct (Set_has (Str "C1") cn); destruct (Set_has (Str "C2") cn);
    destruct (Set_has (Str "C3") cn);
    try discriminate Hsome; apply eqb_eq; vm_compute; reflexivity.
Qed.

Lemma Part000_starts_by_centers (cn : list loc) :
  NoDup cn -> incl cn centers -> cn <> [] ->
  Math_round
    (mul
       (fold_left
          (fun m s =>
             if lt (cost (Part000.findOptimalRoute s cn)) m
             then cost (Part000.findOptimalRoute s cn) else m)
          centers PosInf)
       Part000.scalingFactor)
  = ofZ (part000CostOf (Set_has (Str "C1") cn) (Set_has (Str "C2") cn)
           (Set_has (Str "C3") cn)).
Proof.
  intros Hnd Hincl Hne.
  pose proof (some_center_needed _ Hne Hincl) as Hsome.
  rewrite fold_left_ext_in
    with (h := fun m s =>
                 if lt (cost (Part000.findOptimalRoute s
                                (filter (fun c => Set_has c cn) centers))) m
                 then cost (Part000.findOptimalRoute s
                              (filter (fun c => Set_has c cn) centers))
                 else m).
  2: { intros m s _. unfold Part000.findOptimalRoute.
       now rewrite (cost_of_canonical_centers Part000.DISTANCES
                      Part000.COST_PER_UNIT s _ Part000_COST_pos Hnd Hincl). }
  change (@centers loc loc_Location) with [Str "C1"; Str "C2"; Str "C3"].
  change (@fromString loc loc_Location) with Str in Hsome.
  cbn [filter].
  destruct (Set_has (Str "C1") cn); destruct (Set_has (Str "C2") cn);
    destruct (Set_has (Str "C3") cn);
    try discriminate Hsome; apply eqb_eq; vm_compute; reflexivity.
Qed.

(** Without a product named as a member of [Object.prototype], the set
    holds centres only. *)
Lemma plainProducts_centers (order : object JS.value) :
  plainProducts order -> incl (centersNeededOf order) centers.
Proof.
  intros Hplain c Hc. apply centersNeededOf_In in Hc.
  destruct Hc as [k [Hk Hc]]. apply catalog_centers in Hc.
  destruct Hc as [[center [-> [_ [_ H]]]]|[_ [H _]]].
  - apply centers_loc. now exists center.
  - apply inherited_In in H. exfalso. exact (Hplain k Hk H).
Qed.











(** ** Products named as members of [Object.prototype] *)




Section ThroughAMember.

Variable DISTANCES : object Qc.
Variable COST : Qc.
Hypothesis COST_pos : (0 < COST)%Qc.
Hypothesis missing :
  forall p name, obj_get (tableKey p (memberText name)) DISTANCES = None.



End ThroughAMember.









(** ** When the answer is a number *)

Lemma ofZ_inj (a b : Z) : ofZ a = ofZ b -> a = b.
Proof.
  unfold ofZ. intro H.
  assert (Hnum : forall x y, Num x = Num y -> x = y)
    by (intros x y Hxy; now inversion Hxy).
  apply Hnum in H. apply (proj1 (Q2Qc_eq_iff _ _)) in H.
  exact (proj1 (inject_Z_injective a b) H).
Qed.

Lemma Ans_inj (a b : jsnum) : Ans a = Ans b -> a = b.
Proof. intro H. now inversion H. Qed.








(** ** Every set of centres can be served *)

Lemma route_not_null (DISTANCES : object Qc) (COST : Qc)
  (startCenter : string) (cn : list string) :
  cost (findOptimalRoute DISTANCES COST startCenter cn) <> PosInf ->
  route (findOptimalRoute DISTANCES COST startCenter cn) <> None.
Proof.
  intro Hfin.
  destruct (list_eq_dec string_dec (toVisit startCenter cn) []) as [E|Hne].
  - rewrite findOptimalRoute_empty by exact E.
    destruct (Set_has startCenter cn); discriminate.
  - pose proof (findOptimalRoute_searchResult DISTANCES COST startCenter cn
                  Hne) as H.
    unfold searchResult in H.
    destruct (route (findOptimalRoute DISTANCES COST startCenter cn));
      [discriminate | contradiction].
Qed.

(** X21. With the table of either file, from each of the three centres and
    for every non-empty set of centres needed, [findOptimalRoute] returns a
    route and a finite cost: no set of centres is out of reach. *)
Theorem findOptimalRoute_always_routable (startCenter : string)
  (cn : list string) :
  In startCenter centers -> NoDup cn -> incl cn centers -> cn <> [] ->
  (cost (IndexJs.findOptimalRoute startCenter cn) <> PosInf
   /\ route (IndexJs.findOptimalRoute startCenter cn) <> None)
  /\ (cost (Part000.findOptimalRoute startCenter cn) <> PosInf
      /\ route (Part000.findOptimalRoute startCenter cn) <> None).
Proof.
  intros Hs Hnd Hincl Hne.
  pose proof (some_center_needed _ Hne Hincl) as Hsome.
  assert (H : cost (IndexJs.findOptimalRoute startCenter cn) <> PosInf
              /\ cost (Part000.findOptimalRoute startCenter cn) <> PosInf).
  { unfold IndexJs.findOptimalRoute, Part000.findOptimalRoute.
    rewrite (cost_of_canonical_centers IndexJs.DISTANCES IndexJs.COST_PER_KM
               startCenter cn IndexJs_COST_pos Hnd Hincl).
    rewrite (cost_of_canonical_centers Part000.DISTANCES
               Part000.COST_PER_UNIT startCenter cn Part000_COST_pos Hnd
               Hincl).
    change (@centers string string_Location)
      with ["C1"; "C2"; "C3"]%string in Hs |- *.
    change (@fromString string string_Location) with (fun s : string => s)
      in Hsome.
    cbv beta in Hsome. cbn [filter]. simpl in Hs.
    destruct Hs as [<-|[<-|[<-|[]]]];
      destruct (Set_has "C1"%string cn); destruct (Set_has "C2"%string cn);
      destruct (Set_has "C3"%string cn);
      try discriminate Hsome; split; vm_compute; discriminate. }
  destruct H as [H1 H2].
  split; (split; [assumption | now apply route_not_null]).
Qed.

Lemma findOptimalRoute_always_routable_witness :
  (In "C2"%string centers
   /\ NoDup ["C1"; "C3"]%string
   /\ incl ["C1"; "C3"]%string centers
   /\ ["C1"; "C3"]%string <> [])
  /\ cost (IndexJs.findOptimalRoute "C2" ["C1"; "C3"]%string) <> PosInf.
Proof.
  assert (H : In "C2"%string centers
              /\ NoDup ["C1"; "C3"]%string
              /\ incl ["C1"; "C3"]%string centers
              /\ ["C1"; "C3"]%string <> []).
  { split; [right; now left|]. split; [|split].
    - repeat constructor; simpl; intuition discriminate.
    - intros x Hx. simpl in Hx. unfold centers. simpl. tauto.
    - discriminate. }
  split; [exact H|].
  destruct H as [H1 [H2 [H3 H4]]].
  exact (proj1 (proj1 (findOptimalRoute_always_routable "C2"
                         ["C1"; "C3"]%string H1 H2 H3 H4))).
Defined.

(** ** The fixed answers against the computed minimum *)

Lemma needs_center (order : object JS.value) (keys : list string)
  (center : string) :
  sort (Object_keys (filteredOrder order)) = keys ->
  Set_has (Str center) (centersNeededOf order)
  = existsb (stockedBy center) keys.
Proof.
  intros <-. apply eq_true_iff_eq.
  rewrite Set_has_In, centersNeededOf_In, existsb_exists.
  unfold stockedBy. split.
  - intros [product [Hk Hc]]. exists product.
    split; [now apply sort_In|]. apply catalog_centers in Hc.
    destruct Hc as [[c [E [Hget _]]]|[E _]]; [|discriminate].
    inversion E; subst. rewrite Hget. apply String.eqb_refl.
  - intros [product [Hk Hc]]. exists product.
    split; [now apply (proj1 (sort_In _ _))|].
    destruct (obj_get product getProductCenterMap) as [c|] eqn:E;
      [|discriminate].
    apply String.eqb_eq in Hc. subst c.
    now apply stocks_center, center_stocks.
Qed.

Lemma special_orders_plain (order : object JS.value) (keys : list string)
  (fixed : Z) :
  In (keys, fixed) specialOrders ->
  sort (Object_keys (filteredOrder order)) = keys ->
  plainProducts order.
Proof.
  intros Hspecial Hsort product Hp Hin.
  apply (proj2 (sort_In _ _)) in Hp. rewrite Hsort in Hp.
  apply inherited_In in Hin.
  unfold specialOrders in Hspecial. simpl in Hspecial.
  destruct Hspecial as [H|[H|[H|[H|[]]]]]; inversion H as [[Hk Hf]];
    rewrite <- Hk in Hp; simpl in Hp;
    repeat (destruct Hp as [<-|Hp]; [discriminate Hin|]); contradiction.
Qed.

Lemma special_orders_answer (order : object JS.value) (keys : list string)
  (fixed : Z) :
  In (keys, fixed) specialOrders ->
  sort (Object_keys (filteredOrder order)) = keys ->
  centersNeededOf order <> []
  /\ IndexJs.calculateMinDeliveryCost order = ofZ fixed
  /\ Part000.calculateMinDeliveryCost order = ofZ fixed.
Proof.
  intros Hspecial Hsort.
  destruct (special_lookup keys fixed Hspecial) as [H1 [H2 HA]].
  rewrite <- Hsort in HA. apply (proj1 (sort_In _ _)) in HA.
  pose proof (length_not_zero _ _ _ HA) as Hkeys.
  pose proof (product_A_needs_C1 order HA) as HC1.
  pose proof (length_not_zero _ _ _ HC1) as Hcen.
  split; [intro E; rewrite E in HC1; contradiction|]. split.
  - unfold IndexJs.calculateMinDeliveryCost,
      IndexJs.calculateMinDeliveryCostWith.
    rewrite Hkeys. fold (centersNeededOf order). rewrite Hcen.
    now rewrite Hsort, H1.
  - unfold Part000.calculateMinDeliveryCost.
    rewrite Part000_cases, Hkeys. unfold orderProducts.
    now rewrite Hsort, H2.
Qed.

(** X22. On each of the four orders answered from the table of fixed
    answers, the fixed answer is not what the loop over the starts would
    have returned: 78, 168, 86, 118 against 39, 129, 132, 132 in [index.js],
    and against 117, 254, 195, 195 in the second entry point. *)
Theorem fixed_answers_differ (order : object JS.value) (keys : list string)
  (fixed : Z) :
  In (keys, fixed) specialOrders ->
  sort (Object_keys (filteredOrder order)) = keys ->
  IndexJs.calculateMinDeliveryCost order
  <> fold_left
       (fun minCost startCenter =>
          Math_min minCost
            (cost (IndexJs.findOptimalRoute startCenter
                     (centersNeededOf order))))
       centers PosInf
  /\ Part000.calculateMinDeliveryCost order
     <> Math_round
          (mul
             (fold_left
                (fun minCost startCenter =>
                   let c :=
                     cost (Part000.findOptimalRoute startCenter
                             (centersNeededOf order)) in
                   if lt c minCost then c else minCost)
                centers PosInf)
             Part000.scalingFactor).
Proof.
  intros Hspecial Hsort.
  destruct (special_orders_answer order keys fixed Hspecial Hsort)
    as [Hne [E1 E2]].
  pose proof (centersNeededOf_NoDup order) as Hnd.
  pose proof (plainProducts_centers order
                (special_orders_plain order keys fixed Hspecial Hsort))
    as Hincl.
  rewrite E1, E2.
  rewrite (fold_Math_min loc
             (fun s => cost (IndexJs.findOptimalRoute s (centersNeededOf order))))
    by (try exact I; intro s; apply IndexJs_starts_isCost).
  cbv zeta.
  rewrite IndexJs_starts_by_centers, Part000_starts_by_centers by assumption.
  rewrite !(needs_center order keys) by exact Hsort.
  unfold specialOrders in Hspecial. simpl in Hspecial.
  destruct Hspecial as [H|[H|[H|[H|[]]]]]; inversion H; subst;
    split; intro E; apply Ans_inj, ofZ_inj in E; vm_compute in E;
    discriminate E.
Qed.

Lemma fixed_answers_differ_witness :
  (In (["A"; "B"; "C"]%string, 78%Z) specialOrders
   /\ sort (Object_keys
              (filteredOrder
                 [("B", VNumber (ofZ 1)); ("A", VNumber (ofZ 1));
                  ("C", VNumber (ofZ 1))]%string))
      = ["A"; "B"; "C"]%string)
  /\ IndexJs.calculateMinDeliveryCost
       [("B", VNumber (ofZ 1)); ("A", VNumber (ofZ 1));
        ("C", VNumber (ofZ 1))]%string
     <> fold_left
          (fun minCost startCenter =>
             Math_min minCost
               (cost (IndexJs.findOptimalRoute startCenter
                        (centersNeededOf
                           [("B", VNumber (ofZ 1)); ("A", VNumber (ofZ 1));
                            ("C", VNumber (ofZ 1))]%string))))
          centers PosInf.
Proof.
  assert (H : In (["A"; "B"; "C"]%string, 78%Z) specialOrders
              /\ sort (Object_keys
                         (filteredOrder
                            [("B", VNumber (ofZ 1)); ("A", VNumber (ofZ 1));
                             ("C", VNumber (ofZ 1))]%string))
                 = ["A"; "B"; "C"]%string).
  { split; [now left | reflexivity]. }
  split; [exact H|].
  exact (proj1 (fixed_answers_differ _ _ _ (proj1 H) (proj2 H))).
Defined.

(** ** Keys and products at the edge of the tables *)

(** X25. The distance table read at a key that names a member of
    [Object.prototype]: [getDistance('_', 'proto__')] reads [__proto__] and
    is [Object.prototype] itself, [getDistance('', '_defineGetter__')] is a
    function, and the other way round both are [Infinity]; the route
    [['_', 'proto__']] then costs NaN, and backwards [Infinity]. *)
Theorem getDistance_inherited_keys :
  getDistance IndexJs.DISTANCES "_" "proto__" = DistProto "__proto__"
  /\ getDistance IndexJs.DISTANCES "proto__" "_" = Dist PosInf
  /\ getDistance IndexJs.DISTANCES "" "_defineGetter__"
     = DistProto "__defineGetter__"
  /\ getDistance IndexJs.DISTANCES "_defineGetter__" "" = Dist PosInf
  /\ calculateRouteCost IndexJs.DISTANCES IndexJs.COST_PER_KM
       ["_"; "proto__"]%string = NaN
  /\ calculateRouteCost IndexJs.DISTANCES IndexJs.COST_PER_KM
       ["proto__"; "_"]%string = PosInf.
Proof. repeat split; reflexivity. Qed.

(** X26. The cleaned order never has a property named [__proto__]: the
    assignment of a number under that name reaches the setter of
    [Object.prototype] and defines nothing.  So the order
    [{"__proto__": 1, "A": 1, "B": 1, "C": 1}] is the order of A, B and C,
    answered 78 by both entry points. *)
Theorem filteredOrder_drops_proto (order : object JS.value) :
  ~ In "__proto__"%string (Object_keys (filteredOrder order))
  /\ filteredOrder
       [("__proto__", VNumber (ofZ 1)); ("A", VNumber (ofZ 1));
        ("B", VNumber (ofZ 1)); ("C", VNumber (ofZ 1))]%string
     = [("A", ofZ 1); ("B", ofZ 1); ("C", ofZ 1)]%string
  /\ IndexJs.calculateMinDeliveryCost
       [("__proto__", VNumber (ofZ 1)); ("A", VNumber (ofZ 1));
        ("B", VNumber (ofZ 1)); ("C", VNumber (ofZ 1))]%string
     = ofZ 78
  /\ Part000.calculateMinDeliveryCost
       [("__proto__", VNumber (ofZ 1)); ("A", VNumber (ofZ 1));
        ("B", VNumber (ofZ 1)); ("C", VNumber (ofZ 1))]%string
     = ofZ 78.
Proof.
  split; [apply filteredOrder_no_proto|].
  repeat split; reflexivity.
Qed.



